(** * UCXXRT startup.cpp: initializer tables and the onexit registry

    A shallow embedding of [src/startup.cpp]: the two table walkers
    [_initterm] / [_initterm_e], the singly linked registry of
    [onexit_entry] records with its two static head pointers, and the pool
    policy selection [_initialize_pool].

    Pointers are machine addresses ([N], with [0] for [nullptr]).  The
    records created by [new onexit_entry] live in an explicit heap, so that
    [delete] really releases them and a later access through a stale
    pointer is visible as undefined behaviour. *)

From Stdlib Require Import ZArith List Lia.
From stdpp Require Import gmap list.

Import ListNotations.

(** ** Data *)

Abbreviation nullptr := 0%N (only parsing).

(** [struct onexit_entry { onexit_entry* _next; _PVFV _destructor; }] *)
Record onexit_entry : Type := mk_onexit_entry {
  _next : N;
  _destructor : N
}.

(** The WDK enumeration [POOL_TYPE]; the source only names [NonPagedPool]. *)
Inductive POOL_TYPE : Type :=
| NonPagedPool
| PagedPool
| NonPagedPoolMustSucceed
| NonPagedPoolNx.

(** The two fields of [RTL_OSVERSIONINFOW] that the source reads (both
    [ULONG]). *)
Record RTL_OSVERSIONINFOW : Type := mk_osversion {
  dwMajorVersion : Z;
  dwMinorVersion : Z
}.

(** The WDK macro [NT_SUCCESS(Status)]: [((NTSTATUS)(Status)) >= 0]. *)
Definition NT_SUCCESS (status : Z) : bool := (0 <=? status)%Z.

(** The marker arrays that open the four groups of the [.CRT] section:
    [_PIFV __xi_a[] = { nullptr }], [_PVFV __xc_a[] = { nullptr }],
    [__xp_a] and [__xt_a].  The linker places the entries contributed to
    a group after its opening marker; the closing markers [__xi_z],
    [__xc_z], [__xp_z], [__xt_z] are the [last] of the walked ranges and
    are not part of them. *)
Definition __xi_a : list N := [0%N].
Definition __xc_a : list N := [0%N].
Definition __xp_a : list N := [0%N].
Definition __xt_a : list N := [0%N].

(** The ways the C++ program can leave defined behaviour. *)
Inductive fault : Type :=
| NullCall          (* a call through a null function pointer *)
| ReleasedRecord.   (* an access to an [onexit_entry] that is not live *)

(** An environment for the worked examples: the world is the stack of the
    functions called so far (newest first), and the [_PIFV] function at
    address 13 reports the status 5 while all others report 0. *)
Definition example_PVFV (f : N) (w : list N) : list N := f :: w.

Definition example_PIFV (f : N) (w : list N) : Z * list N :=
  (if (f =? 13)%N then 5%Z else 0%Z, f :: w).

Section Startup.

(** Everything the invoked functions can observe and change that is not
    part of this translation unit.  [call_PVFV f] is the effect of
    calling the function at the non-null address [f] through a [_PVFV]
    (no result); [call_PIFV f] is the same for a [_PIFV] and also
    yields the returned [int] status.  The functions do not re-enter
    the registry. *)
Context {World : Type}.
Variable call_PVFV : N -> World -> World.
Variable call_PIFV : N -> World -> Z * World.

(** The state of the translation unit, with the log [calls] of the
    function pointers invoked so far (oldest first). *)
Record machine : Type := mk_machine {
  world : World;
  calls : list N;
  heap : gmap N onexit_entry;
  s_onexit_table : N;
  s_quick_onexit_table : N;
  DefaultPoolType : POOL_TYPE;
  DefaultMdlProtection : Z
}.

(** The state when the module is loaded: both head pointers are
    [nullptr] and no record exists.  The defaults of the two policy
    values are defined in another translation unit. *)
Definition initial (w : World) (pool : POOL_TYPE) (mdl : Z) : machine :=
  mk_machine w [] ∅ nullptr nullptr pool mdl.

Definition with_world (w : World) (m : machine) : machine :=
  mk_machine w (calls m) (heap m) (s_onexit_table m)
    (s_quick_onexit_table m) (DefaultPoolType m) (DefaultMdlProtection m).

Definition with_calls (l : list N) (m : machine) : machine :=
  mk_machine (world m) l (heap m) (s_onexit_table m)
    (s_quick_onexit_table m) (DefaultPoolType m) (DefaultMdlProtection m).

Definition with_heap (h : gmap N onexit_entry) (m : machine) : machine :=
  mk_machine (world m) (calls m) h (s_onexit_table m)
    (s_quick_onexit_table m) (DefaultPoolType m) (DefaultMdlProtection m).

Definition with_s_onexit_table (p : N) (m : machine) : machine :=
  mk_machine (world m) (calls m) (heap m) p
    (s_quick_onexit_table m) (DefaultPoolType m) (DefaultMdlProtection m).

Definition with_pool (pool : POOL_TYPE) (mdl : Z) (m : machine) : machine :=
  mk_machine (world m) (calls m) (heap m) (s_onexit_table m)
    (s_quick_onexit_table m) pool mdl.

(** ** The monad of the program: state, undefined behaviour, fuel *)

Inductive result (A : Type) : Type :=
| Ok (a : A) (m : machine)
| Undefined (why : fault) (m : machine)
| OutOfFuel.
Arguments Ok {A} a m.
Arguments Undefined {A} why m.
Arguments OutOfFuel {A}.

Definition M (A : Type) : Type := machine -> result A.

Definition ret {A} (a : A) : M A := fun m => Ok a m.

Definition bind {A B} (c : M A) (k : A -> M B) : M B :=
  fun m =>
    match c m with
    | Ok a m' => k a m'
    | Undefined why m' => Undefined why m'
    | OutOfFuel => OutOfFuel
    end.

Notation "'do' x <- c ; k" := (bind c (fun x => k))
  (at level 10, x name, c at level 100, k at level 200).
Notation "'do_' c ; k" := (bind c (fun _ => k))
  (at level 10, c at level 100, k at level 200).

Definition get {A} (field : machine -> A) : M A := fun m => Ok (field m) m.
Definition modify (f : machine -> machine) : M unit := fun m => Ok tt (f m).
Definition undefined {A} (why : fault) : M A := fun m => Undefined why m.

(** ** Calls through function pointers *)

(** A call through [f : _PVFV]; a null [f] has no function to call. *)
Definition invoke_PVFV (f : N) : M unit :=
  if (f =? nullptr)%N then undefined NullCall
  else modify (fun m =>
         with_calls (calls m ++ [f]) (with_world (call_PVFV f (world m)) m)).

(** A call through [f : _PIFV], yielding the returned [int]. *)
Definition invoke_PIFV (f : N) : M Z :=
  if (f =? nullptr)%N then undefined NullCall
  else fun m =>
         let '(status, w) := call_PIFV f (world m) in
         Ok status (with_calls (calls m ++ [f]) (with_world w m)).

(** ** _initialize_pool

    [query] is what [RtlGetVersion(&ver_info)] returns and writes. *)
Definition _initialize_pool (query : Z * RTL_OSVERSIONINFOW) : M unit :=
  let '(status, ver_info) := query in
  if negb (NT_SUCCESS status) then ret tt
  else if ((dwMajorVersion ver_info <? 6)%Z ||
           ((dwMajorVersion ver_info =? 6)%Z &&
            (dwMinorVersion ver_info <? 2)%Z))%bool
       then modify (with_pool NonPagedPool 0%Z)
       else ret tt.

(** ** _initterm and _initterm_e

    A valid range [[first, last)] is given by the list of its entries,
    [first] at the head; [first == last] is the empty list. *)
Fixpoint _initterm (range : list N) : M unit :=
  match range with
  | [] => ret tt
  | it :: rest =>
      if (it =? nullptr)%N then _initterm rest
      else do_ invoke_PVFV it; _initterm rest
  end.

Fixpoint _initterm_e (range : list N) : M Z :=
  match range with
  | [] => ret 0%Z
  | it :: rest =>
      if (it =? nullptr)%N then _initterm_e rest
      else do result <- invoke_PIFV it;
           if negb (result =? 0)%Z then ret result
           else _initterm_e rest
  end.

(** ** The onexit registry *)

(** [new onexit_entry(next, destructor)].  [mem] is what the allocation
    function hands back: [nullptr] when it fails, otherwise the address
    of the storage in which the record is constructed. *)
Definition new_onexit_entry (mem next destructor : N) : M N :=
  if (mem =? nullptr)%N then ret nullptr
  else do_ modify (fun m =>
             with_heap (<[mem := mk_onexit_entry next destructor]> (heap m)) m);
       ret mem.

(** [entry->_next] *)
Definition load_next (entry : N) : M N :=
  fun m =>
    match heap m !! entry with
    | Some e => Ok (_next e) m
    | None => Undefined ReleasedRecord m
    end.

(** [delete entry]: runs [~onexit_entry()], which calls [_destructor()],
    and then releases the storage. *)
Definition delete_onexit_entry (entry : N) : M unit :=
  do e <- (fun m => match heap m !! entry with
                    | Some e => Ok e m
                    | None => Undefined ReleasedRecord m
                    end);
  do_ invoke_PVFV (_destructor e);
  modify (fun m => with_heap (delete entry (heap m)) m).

Definition _register_onexit_function (mem : N) (table function : N) : M Z :=
  do entry <- new_onexit_entry mem table function;
  if (nullptr =? entry)%N then ret (-1)%Z
  else do_ modify (with_s_onexit_table entry);
       ret 0%Z.

(** The loop of [_execute_onexit_table]; one unit of fuel per test of
    the loop condition. *)
Fixpoint execute_loop (fuel : nat) (entry : N) : M Z :=
  match fuel with
  | O => fun _ => OutOfFuel
  | S fuel' =>
      if (entry =? nullptr)%N then ret 0%Z
      else do next <- load_next entry;
           do_ delete_onexit_entry entry;
           execute_loop fuel' next
  end.

(** Every iteration releases one live record, so the loop condition is
    tested at most once more than there are live records. *)
Definition _execute_onexit_table (table : N) : M Z :=
  fun m => execute_loop (S (size (heap m))) table m.

Definition atexit (mem : N) (function : N) : M Z :=
  do table <- get s_onexit_table;
  _register_onexit_function mem table function.

Definition at_quick_exit (mem : N) (function : N) : M Z :=
  do table <- get s_quick_onexit_table;
  _register_onexit_function mem table function.

Definition onexit (mem : N) (function : N) : M N :=
  do status <- atexit mem function;
  ret (if (status =? 0)%Z then function else nullptr).

Definition _onexit (mem : N) (function : N) : M N :=
  onexit mem function.

(** ** Clients

    The entry points above have external linkage; [request] lists the
    calls a client can make.  The two head pointers are [static], so the
    teardown of a slot is [_execute_onexit_table] applied to the value
    the head pointer holds at that moment ([drain]). *)
Definition drain (slot : machine -> N) : M Z :=
  do table <- get slot;
  _execute_onexit_table table.

Inductive request : Type :=
| call_initialize_pool (query : Z * RTL_OSVERSIONINFOW)
| call_initterm (range : list N)
| call_initterm_e (range : list N)
| call_register_onexit_function (mem table function : N)
| call_execute_onexit_table (table : N)
| call_drain_normal
| call_drain_quick
| call_atexit (mem function : N)
| call_at_quick_exit (mem function : N)
| call_onexit (mem function : N)
| call__onexit (mem function : N).

Definition discard {A} (c : M A) : M unit := do_ c; ret tt.

Definition serve (r : request) : M unit :=
  match r with
  | call_initialize_pool query => _initialize_pool query
  | call_initterm range => _initterm range
  | call_initterm_e range => discard (_initterm_e range)
  | call_register_onexit_function mem table function =>
      discard (_register_onexit_function mem table function)
  | call_execute_onexit_table table => discard (_execute_onexit_table table)
  | call_drain_normal => discard (drain s_onexit_table)
  | call_drain_quick => discard (drain s_quick_onexit_table)
  | call_atexit mem function => discard (atexit mem function)
  | call_at_quick_exit mem function => discard (at_quick_exit mem function)
  | call_onexit mem function => discard (onexit mem function)
  | call__onexit mem function => discard (_onexit mem function)
  end.

Fixpoint serve_all (rs : list request) : M unit :=
  match rs with
  | [] => ret tt
  | r :: rs' => do_ serve r; serve_all rs'
  end.

(** [atexit] for each [(mem, function)] of [regs] in turn, collecting
    the returned statuses. *)
Fixpoint atexit_each (regs : list (N * N)) : M (list Z) :=
  match regs with
  | [] => ret []
  | (mem, function) :: regs' =>
      do status <- atexit mem function;
      do statuses <- atexit_each regs';
      ret (status :: statuses)
  end.

(** ** Vocabulary of the statements *)

(** A chain is described by its records, head first, each as the pair
    of its address and its stored callback. *)
Definition head_addr (l : list (N * N)) : N :=
  match l with
  | [] => nullptr
  | (a, _) :: _ => a
  end.

(** The records of [l] are live in [h], at distinct non-null addresses,
    and each one's [_next] is the address of its successor in [l]
    ([nullptr] for the last). *)
Fixpoint records (h : gmap N onexit_entry) (l : list (N * N)) : Prop :=
  match l with
  | [] => True
  | (a, f) :: l' =>
      a ≠ nullptr ∧
      h !! a = Some (mk_onexit_entry (head_addr l') f) ∧
      records (delete a h) l'
  end.

Definition chain (h : gmap N onexit_entry) (p : N) (l : list (N * N)) : Prop :=
  p = head_addr l ∧ records h l.

(** The heap once the records of [l] are released. *)
Definition released (l : list (N * N)) (h : gmap N onexit_entry)
  : gmap N onexit_entry :=
  fold_left (fun h' af => delete (fst af) h') l h.

(** The state once the functions [fs] have been called through [_PVFV],
    first to last. *)
Definition after_PVFV (fs : list N) (m : machine) : machine :=
  with_calls (calls m ++ fs)
    (with_world (fold_left (fun w f => call_PVFV f w) fs (world m)) m).

(** The non-null entries of a range, in index order. *)
Definition invocable (range : list N) : list N :=
  filter (fun f => f ≠ nullptr) range.

(** Starting in world [w], each function of [fs], called in turn through
    [_PIFV], returns zero, and the world is [w'] afterwards. *)
Inductive all_succeed : list N -> World -> World -> Prop :=
| all_succeed_nil w : all_succeed [] w w
| all_succeed_cons f fs w w1 w2 :
    call_PIFV f w = (0%Z, w1) ->
    all_succeed fs w1 w2 ->
    all_succeed (f :: fs) w w2.

(** Storage handed out for a run of successful registrations: non-null,
    not live, and pairwise distinct. *)
Definition fresh_storage (h : gmap N onexit_entry) (regs : list (N * N)) : Prop :=
  NoDup (map fst regs) ∧
  Forall (fun a => a ≠ nullptr ∧ h !! a = None) (map fst regs).

Definition callable (fs : list N) : Prop := Forall (fun f => f ≠ nullptr) fs.

(** The version threshold of [_initialize_pool], as the text states it. *)
Definition below_threshold (major minor : Z) : Prop :=
  (major < 6 ∨ (major = 6 ∧ minor < 2))%Z.

(** The state once the functions [fs] have been called through [_PIFV],
    first to last, leaving the world [w]. *)
Definition after_PIFV (fs : list N) (w : World) (m : machine) : machine :=
  with_calls (calls m ++ fs) (with_world w m).

(** The state once a record for [function] has been constructed at
    [mem] with [_next = table] and installed where
    [_register_onexit_function] installs it. *)
Definition installed (mem table function : N) (m : machine) : machine :=
  with_s_onexit_table mem
    (with_heap (<[mem := mk_onexit_entry table function]> (heap m)) m).

(** The state once [atexit] has succeeded for each [(mem, function)] of
    [regs] in turn. *)
Definition pushed (regs : list (N * N)) (m : machine) : machine :=
  fold_left (fun m' af => installed (fst af) (s_onexit_table m') (snd af) m')
            regs m.

(** [c] leaves the quick-exit head pointer as it found it. *)
Definition keeps_quick {A} (c : M A) : Prop :=
  forall m a m', c m = Ok a m' ->
                 s_quick_onexit_table m' = s_quick_onexit_table m.

(** What a teardown may change: it leaves both head pointers and the
    pool policy alone, only releases records, and only appends to the log
    of calls. *)
Definition teardown_frame (m m' : machine) : Prop :=
  s_onexit_table m' = s_onexit_table m ∧
  s_quick_onexit_table m' = s_quick_onexit_table m ∧
  DefaultPoolType m' = DefaultPoolType m ∧
  DefaultMdlProtection m' = DefaultMdlProtection m ∧
  heap m' ⊆ heap m ∧
  calls m `prefix_of` calls m'.

(** What lies outside the registry's reach in a table walk or a policy
    selection: the records and the two head pointers. *)
Definition same_registry (m m' : machine) : Prop :=
  heap m' = heap m ∧
  s_onexit_table m' = s_onexit_table m ∧
  s_quick_onexit_table m' = s_quick_onexit_table m.

(** The registrations of [regs] whose allocation succeeds. *)
Definition allocated (regs : list (N * N)) : list (N * N) :=
  filter (fun af => fst af ≠ nullptr) regs.

(** The status [atexit] returns for each registration of [regs]. *)
Definition statuses (regs : list (N * N)) : list Z :=
  map (fun af => if (fst af =? nullptr)%N then (-1)%Z else 0%Z) regs.

(** Registrations through either public entry point. *)
Inductive exit_kind : Type :=
| at_normal
| at_quick.

Definition register_as (k : exit_kind) (mem function : N) : M Z :=
  match k with
  | at_normal => atexit mem function
  | at_quick => at_quick_exit mem function
  end.

Fixpoint register_each (regs : list (exit_kind * (N * N))) : M (list Z) :=
  match regs with
  | [] => ret []
  | (k, (mem, function)) :: regs' =>
      do status <- register_as k mem function;
      do rest <- register_each regs';
      ret (status :: rest)
  end.

(** The state once each registration of [regs] has succeeded. *)
Definition registered (regs : list (exit_kind * (N * N))) (m : machine)
  : machine :=
  fold_left
    (fun m' r =>
       installed (fst (snd r))
         (match fst r with
          | at_normal => s_onexit_table m'
          | at_quick => s_quick_onexit_table m'
          end)
         (snd (snd r)) m')
    regs m.

(** ** Auxiliary facts *)

Lemma bind_Ok {A B} (c : M A) (k : A -> M B) m a m' :
  c m = Ok a m' -> bind c k m = k a m'.
Proof. unfold bind. intros ->. reflexivity. Qed.

Lemma invoke_PVFV_callable f m :
  f ≠ nullptr -> invoke_PVFV f m = Ok tt (after_PVFV [f] m).
Proof.
  intros Hf. unfold invoke_PVFV.
  destruct (N.eqb_spec f 0) as [E | _]; [contradiction | reflexivity].
Qed.

Lemma invoke_PVFV_null m : invoke_PVFV nullptr m = Undefined NullCall m.
Proof. reflexivity. Qed.

Lemma after_PVFV_app fs gs m :
  after_PVFV gs (after_PVFV fs m) = after_PVFV (fs ++ gs) m.
Proof.
  unfold after_PVFV, with_calls, with_world. simpl.
  rewrite fold_left_app, app_assoc. reflexivity.
Qed.

Lemma after_PVFV_nil m : after_PVFV [] m = m.
Proof.
  destruct m. unfold after_PVFV, with_calls, with_world. simpl.
  rewrite app_nil_r. reflexivity.
Qed.

Lemma records_size h l : records h l -> length l ≤ size h.
Proof.
  revert h. induction l as [| [a f] l IH]; intros h; simpl.
  - lia.
  - intros (_ & Ha & Hl). apply IH in Hl.
    rewrite (map_size_delete_Some a h) in Hl by eauto.
    assert (size h ≠ 0).
    { intros E. apply map_size_empty_inv in E. subst h.
      rewrite lookup_empty in Ha. discriminate. }
    lia.
Qed.

(** One iteration of the loop on a live record with a callable
    destructor. *)
Lemma execute_loop_step fuel a next f m :
  a ≠ nullptr -> f ≠ nullptr ->
  heap m !! a = Some (mk_onexit_entry next f) ->
  execute_loop (S fuel) a m =
  execute_loop fuel next (with_heap (delete a (heap m)) (after_PVFV [f] m)).
Proof.
  intros Ha Hf Hlook. simpl.
  destruct (N.eqb_spec a 0) as [E | _]; [contradiction |].
  unfold bind at 1. unfold load_next. rewrite Hlook. simpl.
  unfold bind at 1. unfold delete_onexit_entry.
  unfold bind at 1. rewrite Hlook.
  unfold bind at 1. simpl. rewrite (invoke_PVFV_callable f m Hf).
  reflexivity.
Qed.

Lemma execute_loop_records l : forall fuel m,
  records (heap m) l ->
  callable (map snd l) ->
  length l < fuel ->
  execute_loop fuel (head_addr l) m =
  Ok 0%Z (with_heap (released l (heap m)) (after_PVFV (map snd l) m)).
Proof.
  induction l as [| [a f] l IH]; intros fuel m Hrec Hcall Hfuel.
  - destruct fuel as [| fuel]; [simpl in Hfuel; lia |].
    simpl. rewrite after_PVFV_nil. destruct m; reflexivity.
  - destruct fuel as [| fuel]; [simpl in Hfuel; lia |].
    simpl in Hrec. destruct Hrec as (Ha & Hlook & Hrec).
    simpl in Hcall. apply Forall_cons in Hcall as [Hf Hcall].
    simpl head_addr.
    rewrite (execute_loop_step fuel a (head_addr l) f m Ha Hf Hlook).
    rewrite IH; [| exact Hrec | exact Hcall | simpl in Hfuel; lia].
    destruct m. unfold after_PVFV, with_heap, with_calls, with_world, released.
    simpl. rewrite <- app_assoc. reflexivity.
Qed.

(** ** The table walkers *)

Lemma invocable_cons_null range : invocable (nullptr :: range) = invocable range.
Proof. reflexivity. Qed.

Lemma invocable_cons_callable f range :
  f ≠ nullptr -> invocable (f :: range) = f :: invocable range.
Proof.
  intros Hf. unfold invocable. rewrite filter_cons.
  destruct (decide (f ≠ 0%N)); [reflexivity | contradiction].
Qed.

Lemma invocable_callable range : callable (invocable range).
Proof.
  unfold callable, invocable. apply Forall_forall. intros f Hin.
  apply list_elem_of_filter in Hin. exact (proj1 Hin).
Qed.

Lemma invocable_all_null range :
  Forall (fun f => f = nullptr) range -> invocable range = [].
Proof.
  induction 1 as [| f range Hf _ IH]; [reflexivity |].
  subst f. rewrite invocable_cons_null. exact IH.
Qed.

Lemma _initterm_runs range : forall m,
  _initterm range m = Ok tt (after_PVFV (invocable range) m).
Proof.
  induction range as [| it rest IH]; intros m.
  - simpl. rewrite after_PVFV_nil. reflexivity.
  - simpl. destruct (N.eqb_spec it 0) as [-> | Hit].
    + rewrite invocable_cons_null. apply IH.
    + rewrite (invocable_cons_callable it rest Hit).
      rewrite (bind_Ok _ _ _ _ _ (invoke_PVFV_callable it m Hit)).
      rewrite IH, after_PVFV_app. reflexivity.
Qed.

Lemma invoke_PIFV_callable f m status w :
  f ≠ nullptr -> call_PIFV f (world m) = (status, w) ->
  invoke_PIFV f m = Ok status (after_PIFV [f] w m).
Proof.
  intros Hf Hcall. unfold invoke_PIFV.
  destruct (N.eqb_spec f 0) as [E | _]; [contradiction |].
  rewrite Hcall. reflexivity.
Qed.

Lemma after_PIFV_app fs gs w w' m :
  after_PIFV gs w' (after_PIFV fs w m) = after_PIFV (fs ++ gs) w' m.
Proof.
  unfold after_PIFV, with_calls, with_world. simpl.
  rewrite app_assoc. reflexivity.
Qed.

Lemma after_PIFV_nil m : after_PIFV [] (world m) m = m.
Proof.
  destruct m. unfold after_PIFV, with_calls, with_world. simpl.
  rewrite app_nil_r. reflexivity.
Qed.

Lemma _initterm_e_first_failure range : forall m pre e post w1 status w2,
  invocable range = pre ++ e :: post ->
  all_succeed pre (world m) w1 ->
  call_PIFV e w1 = (status, w2) ->
  status ≠ 0%Z ->
  _initterm_e range m = Ok status (after_PIFV (pre ++ [e]) w2 m).
Proof.
  induction range as [| it rest IH]; intros m pre e post w1 status w2 Hinv Hpre He Hst.
  - destruct pre; discriminate.
  - simpl. destruct (N.eqb_spec it 0) as [-> | Hit].
    + rewrite invocable_cons_null in Hinv. eapply IH; eauto.
    + rewrite (invocable_cons_callable it rest Hit) in Hinv.
      destruct pre as [| f pre].
      * simpl in Hinv. injection Hinv as <- Hrest.
        inversion Hpre; subst.
        rewrite (bind_Ok _ _ _ _ _ (invoke_PIFV_callable it m status w2 Hit He)).
        destruct (Z.eqb_spec status 0) as [E | _]; [contradiction |].
        reflexivity.
      * simpl in Hinv. injection Hinv as <- Hrest.
        inversion Hpre as [| f' fs' w' w1' w2' Hf Hfs]; subst.
        rewrite (bind_Ok _ _ _ _ _ (invoke_PIFV_callable it m 0%Z w1' Hit Hf)).
        cbv beta. change (negb (0 =? 0)%Z) with false. cbv iota.
        rewrite (IH (after_PIFV [it] w1' m) pre e post w1 status w2 Hrest Hfs He Hst).
        rewrite after_PIFV_app. reflexivity.
Qed.

Lemma _initterm_e_all_succeed range : forall m w1,
  all_succeed (invocable range) (world m) w1 ->
  _initterm_e range m = Ok 0%Z (after_PIFV (invocable range) w1 m).
Proof.
  induction range as [| it rest IH]; intros m w1 Hall.
  - inversion Hall; subst. simpl. rewrite after_PIFV_nil. reflexivity.
  - simpl. destruct (N.eqb_spec it 0) as [-> | Hit].
    + rewrite invocable_cons_null in *. apply IH, Hall.
    + rewrite (invocable_cons_callable it rest Hit) in *.
      inversion Hall as [| f' fs' w' w1' w2' Hf Hfs]; subst.
      rewrite (bind_Ok _ _ _ _ _ (invoke_PIFV_callable it m 0%Z w1' Hit Hf)).
      cbv beta. change (negb (0 =? 0)%Z) with false. cbv iota.
      rewrite (IH (after_PIFV [it] w1' m) w1 Hfs), after_PIFV_app. reflexivity.
Qed.

(** ** Registration *)

Lemma _register_onexit_function_ok mem table function m :
  mem ≠ nullptr ->
  _register_onexit_function mem table function m =
  Ok 0%Z (installed mem table function m).
Proof.
  intros Hmem. destruct mem as [| addr]; [congruence | reflexivity].
Qed.

Lemma _register_onexit_function_fail table function m :
  _register_onexit_function nullptr table function m = Ok (-1)%Z m.
Proof. reflexivity. Qed.

Lemma atexit_ok mem function m :
  mem ≠ nullptr ->
  atexit mem function m = Ok 0%Z (installed mem (s_onexit_table m) function m).
Proof.
  intros Hmem. unfold atexit, get. unfold bind at 1.
  apply _register_onexit_function_ok, Hmem.
Qed.

Lemma at_quick_exit_ok mem function m :
  mem ≠ nullptr ->
  at_quick_exit mem function m =
  Ok 0%Z (installed mem (s_quick_onexit_table m) function m).
Proof.
  intros Hmem. unfold at_quick_exit, get. unfold bind at 1.
  apply _register_onexit_function_ok, Hmem.
Qed.

Lemma records_installed mem function m l :
  mem ≠ nullptr -> heap m !! mem = None ->
  chain (heap m) (s_onexit_table m) l ->
  chain (heap (installed mem (s_onexit_table m) function m))
        (s_onexit_table (installed mem (s_onexit_table m) function m))
        ((mem, function) :: l).
Proof.
  intros Hmem Hfree [Hhead Hrec]. split; [reflexivity |].
  simpl. split; [exact Hmem |]. split.
  - rewrite lookup_insert_eq, Hhead. reflexivity.
  - rewrite delete_insert_eq, delete_id by exact Hfree. exact Hrec.
Qed.

Lemma atexit_each_ok regs : forall m,
  Forall (fun a => a ≠ nullptr) (map fst regs) ->
  atexit_each regs m = Ok (map (fun _ => 0%Z) regs) (pushed regs m).
Proof.
  induction regs as [| [mem f] regs IH]; intros m Hmem; [reflexivity |].
  simpl in Hmem. apply Forall_cons in Hmem as [Hm Hmem].
  simpl atexit_each.
  rewrite (bind_Ok _ _ _ _ _ (atexit_ok mem f m Hm)).
  rewrite (bind_Ok _ _ _ _ _ (IH _ Hmem)). reflexivity.
Qed.

Lemma fresh_storage_cons h a f regs :
  fresh_storage h ((a, f) :: regs) ->
  a ≠ nullptr ∧ h !! a = None ∧
  forall x, fresh_storage (<[a := x]> h) regs.
Proof.
  intros [Hnd Hall]. simpl in Hnd, Hall.
  apply NoDup_cons in Hnd as [Hnotin Hnd].
  apply Forall_cons in Hall as [[Ha Hfree] Hall].
  repeat split; try assumption.
  apply Forall_forall. intros b Hb.
  assert (a ≠ b) by (intros ->; contradiction).
  rewrite lookup_insert_ne by assumption.
  exact (proj1 (Forall_forall _ _) Hall b Hb).
Qed.

Lemma fresh_storage_nonnull h regs :
  fresh_storage h regs -> Forall (fun a => a ≠ nullptr) (map fst regs).
Proof.
  intros [_ H]. eapply Forall_impl; [exact H |]. intros a [Ha _]. exact Ha.
Qed.

Lemma chain_pushed regs : forall m l,
  fresh_storage (heap m) regs ->
  chain (heap m) (s_onexit_table m) l ->
  chain (heap (pushed regs m)) (s_onexit_table (pushed regs m))
        (rev regs ++ l).
Proof.
  induction regs as [| [a f] regs IH]; intros m l Hfresh Hchain;
    [exact Hchain |].
  apply fresh_storage_cons in Hfresh as (Ha & Hfree & Hrest).
  simpl rev. rewrite <- app_assoc. simpl.
  apply IH.
  - apply Hrest.
  - apply records_installed; assumption.
Qed.

Lemma lookup_released l : forall h k,
  released l h !! k = if decide (k ∈ map fst l) then None else h !! k.
Proof.
  induction l as [| [a f] l IH]; intros h k.
  - simpl. destruct (decide (k ∈ [])) as [Hin | _]; [| reflexivity].
    inversion Hin.
  - unfold released in *. simpl. rewrite IH.
    destruct (decide (k ∈ map fst l)) as [Hin | Hnin].
    + rewrite decide_True by (right; exact Hin). reflexivity.
    + destruct (decide (k = a)) as [-> | Hne].
      * rewrite decide_True by left. apply lookup_delete_eq.
      * rewrite decide_False.
        -- apply lookup_delete_ne. congruence.
        -- intros Hin. inversion Hin; subst; contradiction.
Qed.

Lemma lookup_pushed regs : forall m k,
  k ∉ map fst regs -> heap (pushed regs m) !! k = heap m !! k.
Proof.
  induction regs as [| [a f] regs IH]; intros m k Hk; [reflexivity |].
  simpl in Hk. apply not_elem_of_cons in Hk as [Hne Hk].
  simpl. rewrite (IH _ _ Hk). simpl.
  apply lookup_insert_ne. congruence.
Qed.

Lemma elem_of_rev_iff (k : N) (l : list N) : k ∈ rev l ↔ k ∈ l.
Proof. rewrite !list_elem_of_In. symmetry. apply in_rev. Qed.

Lemma released_pushed regs m :
  fresh_storage (heap m) regs ->
  released (rev regs) (heap (pushed regs m)) = heap m.
Proof.
  intros [_ Hfree]. apply map_eq. intros k. rewrite lookup_released.
  rewrite map_rev.
  destruct (decide (k ∈ rev (map fst regs))) as [Hin | Hnin].
  - rewrite elem_of_rev_iff in Hin.
    symmetry. exact (proj2 (proj1 (Forall_forall _ _) Hfree k Hin)).
  - apply lookup_pushed. rewrite <- elem_of_rev_iff. exact Hnin.
Qed.

Lemma pushed_frame regs : forall m,
  world (pushed regs m) = world m ∧ calls (pushed regs m) = calls m ∧
  s_quick_onexit_table (pushed regs m) = s_quick_onexit_table m.
Proof.
  induction regs as [| [a f] regs IH]; intros m; [easy |].
  simpl. destruct (IH (installed a (s_onexit_table m) f m)) as (-> & -> & ->).
  easy.
Qed.

(** ** Teardown *)

(** The fuel [_execute_onexit_table] passes to its loop is never used
    up: the function always yields a result. *)
Lemma execute_loop_total fuel : forall entry m,
  size (heap m) < fuel -> execute_loop fuel entry m ≠ OutOfFuel.
Proof.
  induction fuel as [| fuel IH]; intros entry m Hfuel; [lia |].
  simpl. destruct (entry =? 0)%N; [discriminate |].
  unfold bind at 1. unfold load_next.
  destruct (heap m !! entry) as [[next f] |] eqn:Hlook; [| discriminate].
  simpl. unfold bind at 1. unfold delete_onexit_entry.
  unfold bind at 1. rewrite Hlook. unfold bind at 1. simpl.
  unfold invoke_PVFV. destruct (f =? 0)%N; [discriminate |].
  simpl. apply IH. simpl.
  rewrite (map_size_delete_Some entry (heap m)) by eauto.
  assert (size (heap m) ≠ 0).
  { intros E. apply map_size_empty_inv in E. rewrite E in Hlook.
    rewrite lookup_empty in Hlook. discriminate. }
  lia.
Qed.

Lemma _execute_onexit_table_total table m :
  _execute_onexit_table table m ≠ OutOfFuel.
Proof. unfold _execute_onexit_table. apply execute_loop_total. lia. Qed.

Lemma _execute_onexit_table_chain table l m :
  chain (heap m) table l ->
  callable (map snd l) ->
  _execute_onexit_table table m =
  Ok 0%Z (with_heap (released l (heap m)) (after_PVFV (map snd l) m)).
Proof.
  intros [-> Hrec] Hcall. unfold _execute_onexit_table.
  apply execute_loop_records; [assumption | assumption |].
  apply records_size in Hrec. lia.
Qed.

Lemma _execute_onexit_table_null m :
  _execute_onexit_table nullptr m = Ok 0%Z m.
Proof. reflexivity. Qed.

(** Walking from a non-null pointer to a record that is not live. *)
Lemma _execute_onexit_table_stale table m :
  table ≠ nullptr -> heap m !! table = None ->
  _execute_onexit_table table m = Undefined ReleasedRecord m.
Proof.
  intros Htable Hlook. unfold _execute_onexit_table. simpl.
  destruct (N.eqb_spec table 0) as [E | _]; [contradiction |].
  unfold bind, load_next. rewrite Hlook. reflexivity.
Qed.

(** A null destructor anywhere in a chain stops the walk there. *)
Lemma execute_loop_null_destructor l : forall fuel m,
  records (heap m) l ->
  ¬ callable (map snd l) ->
  length l < fuel ->
  exists m', execute_loop fuel (head_addr l) m = Undefined NullCall m'.
Proof.
  induction l as [| [a f] l IH]; intros fuel m Hrec Hncall Hfuel.
  - exfalso. apply Hncall. constructor.
  - destruct fuel as [| fuel]; [simpl in Hfuel; lia |].
    simpl in Hrec. destruct Hrec as (Ha & Hlook & Hrec).
    destruct (N.eq_dec f 0%N) as [-> | Hf].
    + exists m. simpl.
      destruct (N.eqb_spec a 0) as [E | _]; [contradiction |].
      unfold bind at 1. unfold load_next. rewrite Hlook. simpl.
      unfold bind at 1. unfold delete_onexit_entry.
      unfold bind at 1. rewrite Hlook. reflexivity.
    + simpl head_addr.
      rewrite (execute_loop_step fuel a (head_addr l) f m Ha Hf Hlook).
      apply IH.
      * exact Hrec.
      * intros Hcall. apply Hncall. simpl. constructor; assumption.
      * simpl in Hfuel. lia.
Qed.

(** A registration over a stale head: the new record's [_next] is the
    stale pointer, and the next teardown runs into it. *)
Lemma drain_after_stale_head m mem function :
  s_onexit_table m ≠ nullptr -> heap m !! s_onexit_table m = None ->
  mem ≠ nullptr -> heap m !! mem = None -> function ≠ nullptr ->
  exists m1 m2,
    atexit mem function m = Ok 0%Z m1 ∧
    drain s_onexit_table m1 = Undefined ReleasedRecord m2 ∧
    calls m2 = calls m ++ [function].
Proof.
  intros Hhead Hstale Hmem Hfree Hf.
  set (m1 := installed mem (s_onexit_table m) function m).
  set (m2 := with_heap (delete mem (heap m1)) (after_PVFV [function] m1)).
  exists m1, m2. split; [apply atexit_ok, Hmem |]. split; [| reflexivity].
  unfold drain, get. unfold bind at 1. unfold _execute_onexit_table.
  assert (Hlook : heap m1 !! mem = Some (mk_onexit_entry (s_onexit_table m) function)).
  { simpl. apply lookup_insert_eq. }
  change (s_onexit_table m1) with mem.
  rewrite (execute_loop_step _ mem _ function m1 Hmem Hf Hlook).
  fold m2.
  assert (Hsize : size (heap m1) ≠ 0).
  { intros E. apply map_size_empty_inv in E. rewrite E in Hlook.
    rewrite lookup_empty in Hlook. discriminate. }
  destruct (size (heap m1)) as [| n]; [contradiction |].
  simpl. destruct (N.eqb_spec (s_onexit_table m) 0) as [E | _]; [contradiction |].
  unfold bind, load_next.
  assert (Hgone : heap m2 !! s_onexit_table m = None).
  { simpl. rewrite delete_insert_eq, delete_id by exact Hfree. exact Hstale. }
  rewrite Hgone. reflexivity.
Qed.

(** ** The quick-exit head pointer is never assigned *)

Lemma keeps_quick_bind {A B} (c : M A) (k : A -> M B) :
  keeps_quick c -> (forall a, keeps_quick (k a)) -> keeps_quick (bind c k).
Proof.
  intros Hc Hk m b m' Hrun. unfold bind in Hrun.
  destruct (c m) as [a m1 | |] eqn:Hcm; try discriminate.
  rewrite (Hk a _ _ _ Hrun). exact (Hc _ _ _ Hcm).
Qed.

Lemma keeps_quick_ret {A} (a : A) : keeps_quick (ret a).
Proof. intros m b m' [= _ <-]. reflexivity. Qed.

Lemma keeps_quick_get {A} (field : machine -> A) : keeps_quick (get field).
Proof. intros m b m' [= _ <-]. reflexivity. Qed.

Lemma keeps_quick_modify f :
  (forall m, s_quick_onexit_table (f m) = s_quick_onexit_table m) ->
  keeps_quick (modify f).
Proof. intros Hf m b m' [= _ <-]. apply Hf. Qed.

Lemma keeps_quick_invoke_PVFV f : keeps_quick (invoke_PVFV f).
Proof.
  unfold invoke_PVFV. destruct (f =? 0)%N.
  - intros m b m' [=].
  - apply keeps_quick_modify. reflexivity.
Qed.

Lemma keeps_quick_invoke_PIFV f : keeps_quick (invoke_PIFV f).
Proof.
  unfold invoke_PIFV. destruct (f =? 0)%N.
  - intros m b m' [=].
  - intros m b m'. destruct (call_PIFV f (world m)). intros [= _ <-].
    reflexivity.
Qed.

Lemma keeps_quick_register mem table function :
  keeps_quick (_register_onexit_function mem table function).
Proof.
  destruct mem as [| addr].
  - intros m b m' [= _ <-]. reflexivity.
  - intros m b m'. rewrite _register_onexit_function_ok by discriminate.
    intros [= _ <-]. reflexivity.
Qed.

Lemma keeps_quick_execute_loop fuel : forall entry,
  keeps_quick (execute_loop fuel entry).
Proof.
  induction fuel as [| fuel IH]; intros entry; [intros m b m' [=] |].
  simpl. destruct (entry =? 0)%N; [apply keeps_quick_ret |].
  apply keeps_quick_bind.
  - intros m b m'. unfold load_next.
    destruct (heap m !! entry); intros [=]; subst; reflexivity.
  - intros next. apply keeps_quick_bind; [| intros _; apply IH].
    unfold delete_onexit_entry. apply keeps_quick_bind.
    + intros m b m'. destruct (heap m !! entry); intros [=]; subst; reflexivity.
    + intros e. apply keeps_quick_bind; [apply keeps_quick_invoke_PVFV |].
      intros _. apply keeps_quick_modify. reflexivity.
Qed.

Lemma keeps_quick_execute table : keeps_quick (_execute_onexit_table table).
Proof.
  intros m b m' Hrun. unfold _execute_onexit_table in Hrun.
  exact (keeps_quick_execute_loop _ _ _ _ _ Hrun).
Qed.

Lemma keeps_quick_initterm range : keeps_quick (_initterm range).
Proof.
  intros m b m'. rewrite _initterm_runs. intros [= _ <-]. reflexivity.
Qed.

Lemma keeps_quick_initterm_e range : keeps_quick (_initterm_e range).
Proof.
  induction range as [| it rest IH]; simpl; [apply keeps_quick_ret |].
  destruct (it =? 0)%N; [exact IH |].
  apply keeps_quick_bind; [apply keeps_quick_invoke_PIFV |].
  intros result. destruct (negb (result =? 0)%Z); [apply keeps_quick_ret | exact IH].
Qed.

Lemma keeps_quick_initialize_pool query : keeps_quick (_initialize_pool query).
Proof.
  destruct query as [status ver]. unfold _initialize_pool.
  destruct (negb (NT_SUCCESS status)); [apply keeps_quick_ret |].
  destruct (_ || _)%bool; [| apply keeps_quick_ret].
  apply keeps_quick_modify. reflexivity.
Qed.

Lemma keeps_quick_serve r : keeps_quick (serve r).
Proof.
  destruct r; simpl; unfold discard, drain, atexit, at_quick_exit, _onexit, onexit, atexit;
    repeat first
      [ apply keeps_quick_initialize_pool
      | apply keeps_quick_initterm
      | apply keeps_quick_initterm_e
      | apply keeps_quick_register
      | apply keeps_quick_execute
      | apply keeps_quick_ret
      | apply keeps_quick_get
      | apply keeps_quick_bind
      | intro ].
Qed.

Lemma keeps_quick_serve_all rs : keeps_quick (serve_all rs).
Proof.
  induction rs as [| r rs IH]; simpl; [apply keeps_quick_ret |].
  apply keeps_quick_bind; [apply keeps_quick_serve | intros _; exact IH].
Qed.

Lemma records_head_stale l h :
  l ≠ [] -> records h l ->
  head_addr l ≠ nullptr ∧ released l h !! head_addr l = None.
Proof.
  destruct l as [| [a f] l]; [congruence |]. intros _ (Ha & _ & _).
  split; [exact Ha |]. rewrite lookup_released.
  rewrite decide_True by (simpl; left). reflexivity.
Qed.

(** ** The properties of the specification *)

(** C1 (amended).  Starting from an empty normal-exit slot, registrations
    c1, ..., cn through [atexit] whose allocations succeed all return 0,
    and draining the slot then invokes the callbacks (taken non-null)
    exactly once each in the order cn, ..., c1 and releases their
    records.  The drain does not reset the head pointer: when n > 0 it
    still holds the address of the released first record, so a
    registration c4 made afterwards is linked to that released record
    and the next drain invokes c4 and then accesses the released record,
    which is undefined behaviour. *)
Theorem atexit_drain_lifo regs m :
  s_onexit_table m = nullptr ->
  fresh_storage (heap m) regs ->
  callable (map snd regs) ->
  exists m1 m2,
    atexit_each regs m = Ok (map (fun _ => 0%Z) regs) m1 ∧
    drain s_onexit_table m1 = Ok 0%Z m2 ∧
    calls m2 = calls m ++ rev (map snd regs) ∧
    world m2 =
      fold_left (fun w f => call_PVFV f w) (rev (map snd regs)) (world m) ∧
    heap m2 = heap m ∧
    s_onexit_table m2 = s_onexit_table m1 ∧
    (regs ≠ [] ->
     forall mem4 c4,
       mem4 ≠ nullptr -> heap m2 !! mem4 = None -> c4 ≠ nullptr ->
       exists m3 m4,
         atexit mem4 c4 m2 = Ok 0%Z m3 ∧
         drain s_onexit_table m3 = Undefined ReleasedRecord m4 ∧
         calls m4 = calls m2 ++ [c4]).
Proof.
  intros Hempty Hfresh Hcall.
  assert (Hchain : chain (heap (pushed regs m)) (s_onexit_table (pushed regs m))
                         (rev regs ++ [])).
  { apply chain_pushed; [exact Hfresh |]. split; [exact Hempty | exact I]. }
  rewrite app_nil_r in Hchain.
  assert (Hcall' : callable (map snd (rev regs))).
  { unfold callable in Hcall |- *. rewrite map_rev. apply Forall_forall.
    intros f Hin. rewrite elem_of_rev_iff in Hin.
    exact (proj1 (Forall_forall _ _) Hcall f Hin). }
  destruct (pushed_frame regs m) as (Hw & Hc & _).
  eexists. eexists.
  split; [apply atexit_each_ok, (fresh_storage_nonnull _ _ Hfresh) |].
  split.
  { unfold drain, get. unfold bind at 1.
    apply (_execute_onexit_table_chain _ (rev regs)); assumption. }
  split; [simpl; rewrite Hc, map_rev; reflexivity |].
  split; [simpl; rewrite Hw, map_rev; reflexivity |].
  split; [simpl; apply released_pushed, Hfresh |].
  split; [reflexivity |].
  intros Hne mem4 c4 Hmem4 Hfree4 Hc4.
  assert (Hne' : rev regs ≠ []).
  { intros E. apply Hne. rewrite <- (rev_involutive regs), E. reflexivity. }
  destruct Hchain as [Hhead Hrec].
  destruct (records_head_stale _ _ Hne' Hrec) as [Hnz Hgone].
  apply drain_after_stale_head; simpl; try assumption.
  - rewrite Hhead. exact Hnz.
  - rewrite Hhead. exact Hgone.
Qed.

(** C2.  In a range whose invocable (non-null) entries are
    [pre ++ e :: post], where the entries of [pre] return zero when
    called in turn and [e] then returns a nonzero status,
    [_initterm_e] invokes exactly [pre] and then [e], in that order,
    returns [e]'s status and invokes nothing of [post]; when every
    invocable entry returns zero it invokes them all and returns zero. *)
Theorem initterm_e_stops_at_first_failure range m :
  (forall pre e post w1 status w2,
      invocable range = pre ++ e :: post ->
      all_succeed pre (world m) w1 ->
      call_PIFV e w1 = (status, w2) ->
      status ≠ 0%Z ->
      exists m',
        _initterm_e range m = Ok status m' ∧
        calls m' = calls m ++ pre ++ [e] ∧
        world m' = w2) ∧
  (forall w1,
      all_succeed (invocable range) (world m) w1 ->
      exists m',
        _initterm_e range m = Ok 0%Z m' ∧
        calls m' = calls m ++ invocable range ∧
        world m' = w1).
Proof.
  split.
  - intros pre e post w1 status w2 Hinv Hpre He Hst.
    eexists. split; [eapply _initterm_e_first_failure; eassumption |].
    split; reflexivity.
  - intros w1 Hall. eexists.
    split; [apply _initterm_e_all_succeed, Hall |]. split; reflexivity.
Qed.

(** C4 (amended).  When the records reachable from [table] form a chain
    [l] with non-null callbacks, [_execute_onexit_table] returns 0 after
    invoking each record's callback exactly once, head first, and
    releasing every record of the chain and no other.  It receives the
    head by value and leaves both head pointers as they were: after a
    non-empty chain the slot still holds the address of a released
    record, and draining it again accesses that record (undefined
    behaviour).  Draining an empty slot invokes nothing and changes
    nothing. *)
Theorem execute_onexit_table_drains table l m :
  chain (heap m) table l ->
  callable (map snd l) ->
  exists m',
    _execute_onexit_table table m = Ok 0%Z m' ∧
    calls m' = calls m ++ map snd l ∧
    world m' = fold_left (fun w f => call_PVFV f w) (map snd l) (world m) ∧
    (forall a, a ∈ map fst l -> heap m' !! a = None) ∧
    (forall a, a ∉ map fst l -> heap m' !! a = heap m !! a) ∧
    s_onexit_table m' = s_onexit_table m ∧
    s_quick_onexit_table m' = s_quick_onexit_table m ∧
    (l = [] -> m' = m) ∧
    (l ≠ [] ->
     _execute_onexit_table table m' = Undefined ReleasedRecord m').
Proof.
  intros Hchain Hcall. eexists.
  split; [apply _execute_onexit_table_chain; eassumption |].
  split; [reflexivity |]. split; [reflexivity |].
  split. { intros a Ha. simpl. rewrite lookup_released, decide_True; auto. }
  split. { intros a Ha. simpl. rewrite lookup_released, decide_False; auto. }
  split; [reflexivity |]. split; [reflexivity |].
  split.
  - intros ->. rewrite after_PVFV_nil. destruct m; reflexivity.
  - intros Hne. destruct Hchain as [-> Hrec].
    destruct (records_head_stale _ _ Hne Hrec) as [Hnz Hgone].
    apply _execute_onexit_table_stale; assumption.
Qed.

(** C5.  When the allocation fails, [_register_onexit_function] (and so
    [atexit] and [at_quick_exit]) returns -1 and leaves the whole state
    as it was; whatever is served afterwards, drains included, behaves
    as if the registration had never been attempted. *)
Theorem registration_failure_changes_nothing table function m :
  _register_onexit_function nullptr table function m = Ok (-1)%Z m ∧
  atexit nullptr function m = Ok (-1)%Z m ∧
  at_quick_exit nullptr function m = Ok (-1)%Z m ∧
  (forall slot,
      bind (atexit nullptr function) (fun _ => drain slot) m = drain slot m) ∧
  (forall rs,
      serve_all (call_atexit nullptr function :: rs) m = serve_all rs m).
Proof. repeat split. Qed.

(** C6.  [_initialize_pool] keeps both policy values when the version
    query fails; when it succeeds with a version below (6, 2) it sets
    the pool type to [NonPagedPool] and the MDL protection to 0; when it
    succeeds with any other version it keeps both values. *)
Theorem initialize_pool_policy status ver m :
  ((status < 0)%Z -> _initialize_pool (status, ver) m = Ok tt m) ∧
  ((0 <= status)%Z ->
   below_threshold (dwMajorVersion ver) (dwMinorVersion ver) ->
   exists m',
     _initialize_pool (status, ver) m = Ok tt m' ∧
     DefaultPoolType m' = NonPagedPool ∧
     DefaultMdlProtection m' = 0%Z ∧
     m' = with_pool NonPagedPool 0%Z m) ∧
  ((0 <= status)%Z ->
   ¬ below_threshold (dwMajorVersion ver) (dwMinorVersion ver) ->
   _initialize_pool (status, ver) m = Ok tt m).
Proof.
  unfold _initialize_pool, NT_SUCCESS, below_threshold.
  destruct ver as [major minor]. simpl.
  repeat split.
  - intros Hs. destruct (Z.leb_spec 0 status); [lia | reflexivity].
  - intros Hs Hbelow. destruct (Z.leb_spec 0 status); [| lia]. simpl.
    exists (with_pool NonPagedPool 0%Z m). split; [| repeat split].
    destruct (Z.ltb_spec major 6); [reflexivity |].
    destruct (Z.eqb_spec major 6); [| lia].
    destruct (Z.ltb_spec minor 2); [reflexivity | lia].
  - intros Hs Hnot. destruct (Z.leb_spec 0 status); [| lia]. simpl.
    destruct (Z.ltb_spec major 6); [exfalso; apply Hnot; lia |].
    destruct (Z.eqb_spec major 6); [| reflexivity].
    destruct (Z.ltb_spec minor 2); [exfalso; apply Hnot; lia | reflexivity].
Qed.

(** C7.  [_initterm] invokes the non-null entries of the range, each
    once, in ascending index order and without stopping early; no null
    entry is invoked; an empty range, or one holding only null entries,
    leads to no invocation at all, in [_initterm] and in [_initterm_e],
    which then returns 0. *)
Theorem initterm_runs_all range m :
  (exists m',
      _initterm range m = Ok tt m' ∧
      calls m' = calls m ++ invocable range ∧
      world m' =
        fold_left (fun w f => call_PVFV f w) (invocable range) (world m) ∧
      callable (invocable range)) ∧
  _initterm [] m = Ok tt m ∧
  _initterm_e [] m = Ok 0%Z m ∧
  (Forall (fun f => f = nullptr) range ->
   _initterm range m = Ok tt m ∧ _initterm_e range m = Ok 0%Z m).
Proof.
  split.
  { eexists. split; [apply _initterm_runs |].
    repeat split. apply invocable_callable. }
  split; [reflexivity |]. split; [reflexivity |].
  intros Hnull. split.
  - rewrite _initterm_runs, (invocable_all_null _ Hnull), after_PVFV_nil.
    reflexivity.
  - rewrite (_initterm_e_all_succeed range m (world m)).
    + rewrite (invocable_all_null _ Hnull), after_PIFV_nil. reflexivity.
    + rewrite (invocable_all_null _ Hnull). constructor.
Qed.

(** C8.  [onexit] and [_onexit] go through [atexit]: they leave the
    state [atexit] leaves, and return the callback pointer itself when
    [atexit] returns 0 (the allocation succeeded) and [nullptr] when it
    does not (the allocation failed). *)
Theorem onexit_returns_function_or_null mem function m :
  (mem ≠ nullptr ->
   exists m',
     atexit mem function m = Ok 0%Z m' ∧
     onexit mem function m = Ok function m' ∧
     _onexit mem function m = Ok function m') ∧
  (atexit nullptr function m = Ok (-1)%Z m ∧
   onexit nullptr function m = Ok nullptr m ∧
   _onexit nullptr function m = Ok nullptr m).
Proof.
  split; [| repeat split].
  intros Hmem. eexists. split; [apply atexit_ok, Hmem |].
  unfold _onexit, onexit.
  rewrite (bind_Ok _ _ _ _ _ (atexit_ok mem function m Hmem)).
  split; reflexivity.
Qed.

(** C9.  In every state the clients can bring about, the quick-exit
    head pointer is null, since nothing assigns it.  A successful
    [at_quick_exit] therefore installs at the normal-exit head a record
    whose [_next] is null: the chain from the normal-exit head is that
    single record, and a drain of the normal-exit slot invokes the
    quick-exit callback only, leaving every record that was live before
    (each earlier registration) neither invoked nor released. *)
Theorem at_quick_exit_orphans_normal_chain rs w pool mdl m mem function :
  serve_all rs (initial w pool mdl) = Ok tt m ->
  mem ≠ nullptr -> heap m !! mem = None -> function ≠ nullptr ->
  s_quick_onexit_table m = nullptr ∧
  exists m1 m2,
    at_quick_exit mem function m = Ok 0%Z m1 ∧
    s_onexit_table m1 = mem ∧
    s_quick_onexit_table m1 = nullptr ∧
    heap m1 !! mem = Some (mk_onexit_entry nullptr function) ∧
    chain (heap m1) (s_onexit_table m1) [(mem, function)] ∧
    drain s_onexit_table m1 = Ok 0%Z m2 ∧
    calls m2 = calls m ++ [function] ∧
    heap m2 = heap m.
Proof.
  intros Hreach Hmem Hfree Hf.
  assert (Hquick : s_quick_onexit_table m = 0%N).
  { exact (keeps_quick_serve_all rs _ _ _ Hreach). }
  split; [exact Hquick |].
  set (m1 := installed mem (s_quick_onexit_table m) function m).
  assert (Hchain : chain (heap m1) (s_onexit_table m1) [(mem, function)]).
  { split; [reflexivity |]. simpl. rewrite lookup_insert_eq, Hquick. auto. }
  eexists m1, _.
  split; [apply at_quick_exit_ok, Hmem |].
  split; [reflexivity |]. split; [exact Hquick |].
  split; [simpl; rewrite lookup_insert_eq, Hquick; reflexivity |].
  split; [exact Hchain |].
  split.
  { unfold drain, get. unfold bind at 1.
    apply _execute_onexit_table_chain; [exact Hchain |].
    repeat constructor. exact Hf. }
  split; [reflexivity |].
  simpl. rewrite delete_insert_eq. apply delete_id, Hfree.
Qed.

(** C10.  [atexit(nullptr)] succeeds whenever the allocation does and
    stores a record whose callback is null; and a drain of a chain
    completes when every stored callback is non-null, and calls through
    a null pointer as soon as one is not. *)
Theorem null_destructor_needs_precondition m mem table l :
  mem ≠ nullptr ->
  chain (heap m) table l ->
  (exists m',
      atexit mem nullptr m = Ok 0%Z m' ∧
      heap m' !! mem = Some (mk_onexit_entry (s_onexit_table m) nullptr)) ∧
  (callable (map snd l) ->
   exists m', _execute_onexit_table table m = Ok 0%Z m') ∧
  (¬ callable (map snd l) ->
   exists m', _execute_onexit_table table m = Undefined NullCall m').
Proof.
  intros Hmem Hchain. split.
  { eexists. split; [apply atexit_ok, Hmem |]. simpl. apply lookup_insert_eq. }
  split.
  - intros Hcall. eexists. apply _execute_onexit_table_chain; eassumption.
  - intros Hncall. destruct Hchain as [-> Hrec].
    unfold _execute_onexit_table.
    apply execute_loop_null_destructor; [assumption | assumption |].
    apply records_size in Hrec. lia.
Qed.

(** ** Further properties of the table walkers *)

Lemma invocable_app r1 r2 : invocable (r1 ++ r2) = invocable r1 ++ invocable r2.
Proof. unfold invocable. apply filter_app. Qed.

Lemma _initterm_e_cons_callable it rest m :
  it ≠ nullptr ->
  _initterm_e (it :: rest) m =
  match invoke_PIFV it m with
  | Ok result m1 =>
      if negb (result =? 0)%Z then Ok result m1 else _initterm_e rest m1
  | Undefined why m1 => Undefined why m1
  | OutOfFuel => OutOfFuel
  end.
Proof.
  intros Hit. simpl. destruct (N.eqb_spec it 0) as [E | _]; [contradiction |].
  unfold bind. destruct (invoke_PIFV it m) as [result m1 | |]; try reflexivity.
  destruct (negb (result =? 0)%Z); reflexivity.
Qed.

Lemma _initterm_e_invocable range : forall m,
  _initterm_e range m = _initterm_e (invocable range) m.
Proof.
  induction range as [| it rest IH]; intros m; [reflexivity |].
  destruct (N.eq_dec it 0%N) as [-> | Hit].
  - rewrite invocable_cons_null. simpl. apply IH.
  - rewrite (invocable_cons_callable it rest Hit).
    rewrite !(_initterm_e_cons_callable it _ m Hit).
    destruct (invoke_PIFV it m) as [result m1 | |]; try reflexivity.
    destruct (negb (result =? 0)%Z); [reflexivity | apply IH].
Qed.

Lemma _initterm_e_app r1 r2 : forall m,
  _initterm_e (r1 ++ r2) m =
  bind (_initterm_e r1)
       (fun status =>
          if negb (status =? 0)%Z then ret status else _initterm_e r2) m.
Proof.
  induction r1 as [| it rest IH]; intros m; [reflexivity |].
  destruct (N.eq_dec it 0%N) as [-> | Hit].
  - simpl. apply IH.
  - change ((it :: rest) ++ r2) with (it :: (rest ++ r2)).
    unfold bind at 1.
    rewrite !(_initterm_e_cons_callable it _ m Hit).
    destruct (invoke_PIFV it m) as [result m1 | |]; try reflexivity.
    destruct (negb (result =? 0)%Z) eqn:Hres.
    + rewrite Hres. reflexivity.
    + rewrite IH. reflexivity.
Qed.

(** X2.  [_initterm_e] always returns: it never calls through a null
    pointer.  The functions it has called are an initial run of the
    non-null entries of the range, in index order; it returns 0 exactly
    when it has called them all and each returned 0, and otherwise the
    status returned by the last function it called.  It leaves the
    registry and the pool policy untouched. *)
Theorem initterm_e_returns range : forall m,
  exists status m' called,
    _initterm_e range m = Ok status m' ∧
    calls m' = calls m ++ called ∧
    called `prefix_of` invocable range ∧
    (status = 0%Z -> called = invocable range) ∧
    (status ≠ 0%Z ->
     exists pre e w,
       called = pre ++ [e] ∧ call_PIFV e w = (status, world m')) ∧
    same_registry m m' ∧
    DefaultPoolType m' = DefaultPoolType m ∧
    DefaultMdlProtection m' = DefaultMdlProtection m.
Proof.
  induction range as [| it rest IH]; intros m.
  - exists 0%Z, m, []. simpl. rewrite app_nil_r.
    repeat split; try reflexivity. intros H. congruence.
  - destruct (N.eq_dec it 0%N) as [-> | Hit].
    + rewrite invocable_cons_null. simpl. apply IH.
    + rewrite (invocable_cons_callable it rest Hit).
      rewrite (_initterm_e_cons_callable it rest m Hit).
      destruct (call_PIFV it (world m)) as [result w] eqn:Hcall.
      rewrite (invoke_PIFV_callable it m result w Hit Hcall).
      destruct (Z.eqb_spec result 0) as [-> | Hres]; simpl negb; cbv iota.
      * destruct (IH (after_PIFV [it] w m))
          as (status & m' & called & Hrun & Hcalls & Hpre & Hzero & Hnz
              & (Hh & Hn & Hq) & Hpool & Hmdl).
        exists status, m', (it :: called). rewrite Hrun.
        split; [reflexivity |].
        split; [rewrite Hcalls; simpl; rewrite <- app_assoc; reflexivity |].
        split; [apply prefix_cons, Hpre |].
        split; [intros H; rewrite (Hzero H); reflexivity |].
        split.
        { intros H. destruct (Hnz H) as (pre & e & w' & -> & He).
          exists (it :: pre), e, w'. split; [reflexivity | exact He]. }
        split; [split; [exact Hh | split; [exact Hn | exact Hq]] |].
        split; [exact Hpool | exact Hmdl].
      * exists result, (after_PIFV [it] w m), [it].
        split; [reflexivity |]. split; [reflexivity |].
        split; [apply prefix_cons, prefix_nil |].
        split; [intros H; contradiction |].
        split.
        { intros _. exists [], it, (world m). split; [reflexivity | exact Hcall]. }
        repeat split.
Qed.

(** X3.  Walking the concatenation of two ranges is walking the first and
    then the second: [_initterm] always goes on to the second range,
    [_initterm_e] goes on only when the first range has returned 0 and
    otherwise returns the first range's status without entering the
    second. *)
Theorem initterm_app r1 r2 m :
  _initterm (r1 ++ r2) m =
  bind (_initterm r1) (fun _ => _initterm r2) m ∧
  _initterm_e (r1 ++ r2) m =
  bind (_initterm_e r1)
       (fun status =>
          if negb (status =? 0)%Z then ret status else _initterm_e r2) m.
Proof.
  split; [| apply _initterm_e_app].
  unfold bind. rewrite !_initterm_runs, invocable_app, after_PVFV_app.
  reflexivity.
Qed.

(** X4.  Null entries are invisible: two ranges with the same non-null
    entries in the same order are walked alike by [_initterm] and by
    [_initterm_e].  In particular the null marker that opens a group of
    the [.CRT] section is skipped, and a group to which nothing was
    contributed is walked without any call. *)
Theorem initterm_ignores_null_entries r1 r2 m :
  invocable r1 = invocable r2 ->
  _initterm r1 m = _initterm r2 m ∧
  _initterm_e r1 m = _initterm_e r2 m ∧
  (forall entries,
      _initterm_e (__xi_a ++ entries) m = _initterm_e entries m ∧
      _initterm (__xc_a ++ entries) m = _initterm entries m ∧
      _initterm (__xp_a ++ entries) m = _initterm entries m ∧
      _initterm (__xt_a ++ entries) m = _initterm entries m) ∧
  _initterm_e __xi_a m = Ok 0%Z m ∧
  _initterm __xc_a m = Ok tt m.
Proof.
  intros Hsame. split; [rewrite !_initterm_runs, Hsame; reflexivity |].
  split.
  { rewrite (_initterm_e_invocable r1), (_initterm_e_invocable r2), Hsame.
    reflexivity. }
  repeat split.
Qed.

(** ** Further properties of the pool policy *)

(** X5.  [_initialize_pool] always returns, touches nothing but the two
    policy values, and either keeps them or sets them to [NonPagedPool]
    and 0.  Selecting twice on the same query is selecting once, and once
    the policy is [NonPagedPool] and 0 no later query changes it: there
    is no way back to the defaults. *)
Theorem initialize_pool_settles query m :
  (exists m',
      _initialize_pool query m = Ok tt m' ∧
      world m' = world m ∧ calls m' = calls m ∧ same_registry m m' ∧
      (m' = m ∨ m' = with_pool NonPagedPool 0%Z m)) ∧
  bind (_initialize_pool query) (fun _ => _initialize_pool query) m
  = _initialize_pool query m ∧
  (forall earlier later m1 m2,
      _initialize_pool earlier m = Ok tt m1 ->
      m1 ≠ m ->
      _initialize_pool later m1 = Ok tt m2 ->
      m2 = m1 ∧ DefaultPoolType m2 = NonPagedPool ∧
      DefaultMdlProtection m2 = 0%Z).
Proof.
  assert (Hcases : forall q (m0 : machine),
             _initialize_pool q m0 = Ok tt m0 ∨
             _initialize_pool q m0 = Ok tt (with_pool NonPagedPool 0%Z m0)).
  { intros [status ver] m0. unfold _initialize_pool.
    destruct (negb (NT_SUCCESS status)); [left; reflexivity |].
    destruct (_ || _)%bool; [right | left]; reflexivity. }
  assert (Hfix : forall q (m0 : machine),
             _initialize_pool q (with_pool NonPagedPool 0%Z m0)
             = Ok tt (with_pool NonPagedPool 0%Z m0)).
  { intros q m0. destruct (Hcases q (with_pool NonPagedPool 0%Z m0)) as [H | H];
      rewrite H; reflexivity. }
  split; [| split].
  - destruct (Hcases query m) as [H | H]; rewrite H; eexists;
      (split; [reflexivity |]); repeat split; auto.
  - unfold bind. destruct (Hcases query m) as [H | H]; rewrite H.
    + exact H.
    + apply Hfix.
  - intros earlier later m1 m2 H1 Hne H2.
    destruct (Hcases earlier m) as [H | H]; rewrite H in H1;
      injection H1 as <-; [contradiction |].
    rewrite Hfix in H2. injection H2 as <-. repeat split.
Qed.

(** ** Further properties of the registry *)

Lemma teardown_frame_refl m : teardown_frame m m.
Proof. repeat split; reflexivity. Qed.

Lemma teardown_frame_step entry f m :
  teardown_frame m (with_heap (delete entry (heap m)) (after_PVFV [f] m)).
Proof.
  repeat split; simpl.
  - apply delete_subseteq.
  - apply prefix_app_r. reflexivity.
Qed.

Lemma teardown_frame_trans m1 m2 m3 :
  teardown_frame m1 m2 -> teardown_frame m2 m3 -> teardown_frame m1 m3.
Proof.
  intros (H1 & H2 & H3 & H4 & H5 & H6) (K1 & K2 & K3 & K4 & K5 & K6).
  repeat split; try congruence.
  - etrans; eassumption.
  - etrans; eassumption.
Qed.

Lemma execute_loop_frame fuel : forall entry m,
  match execute_loop fuel entry m with
  | Ok status m' => status = 0%Z ∧ teardown_frame m m'
  | Undefined _ m' => teardown_frame m m'
  | OutOfFuel => True
  end.
Proof.
  induction fuel as [| fuel IH]; intros entry m; [exact I |].
  destruct (N.eq_dec entry 0%N) as [-> | Hentry].
  { simpl. split; [reflexivity | apply teardown_frame_refl]. }
  destruct (heap m !! entry) as [[next f] |] eqn:Hlook.
  - destruct (N.eq_dec f 0%N) as [-> | Hf].
    + simpl. destruct (N.eqb_spec entry 0) as [E | _]; [contradiction |].
      unfold bind at 1. unfold load_next. rewrite Hlook. simpl.
      unfold bind at 1. unfold delete_onexit_entry.
      unfold bind at 1. rewrite Hlook. simpl. apply teardown_frame_refl.
    + rewrite (execute_loop_step fuel entry next f m Hentry Hf Hlook).
      specialize (IH next (with_heap (delete entry (heap m)) (after_PVFV [f] m))).
      pose proof (teardown_frame_step entry f m) as Hstep.
      destruct (execute_loop fuel next _) as [status m' | why m' |].
      * destruct IH as [-> IH]. split; [reflexivity |].
        eapply teardown_frame_trans; eassumption.
      * eapply teardown_frame_trans; eassumption.
      * exact I.
  - simpl. destruct (N.eqb_spec entry 0) as [E | _]; [contradiction |].
    unfold bind, load_next. rewrite Hlook. apply teardown_frame_refl.
Qed.

(** X1.  [_execute_onexit_table] comes to an end from every pointer and
    on every heap, well formed or not (stale pointers, shared or cyclic
    [_next] links): each round of its loop releases a record.  When it
    returns it returns 0.  Whether it returns or runs into undefined
    behaviour, up to that point it has left both head pointers and the
    pool policy as they were, has released records without creating or
    altering any, and has only added to the calls made. *)
Theorem execute_onexit_table_ends table m :
  _execute_onexit_table table m ≠ OutOfFuel ∧
  (forall status m',
      _execute_onexit_table table m = Ok status m' ->
      status = 0%Z ∧ teardown_frame m m') ∧
  (forall why m',
      _execute_onexit_table table m = Undefined why m' ->
      teardown_frame m m').
Proof.
  split; [unfold _execute_onexit_table; apply execute_loop_total; lia |].
  pose proof (execute_loop_frame (S (size (heap m))) table m) as H.
  unfold _execute_onexit_table.
  split.
  - intros status m' E. rewrite E in H. exact H.
  - intros why m' E. rewrite E in H. exact H.
Qed.

Lemma atexit_each_statuses regs : forall m,
  atexit_each regs m = Ok (statuses regs) (pushed (allocated regs) m).
Proof.
  induction regs as [| [mem f] regs IH]; intros m; [reflexivity |].
  destruct (N.eq_dec mem 0%N) as [-> | Hmem].
  - simpl atexit_each. unfold bind at 1.
    change (atexit 0 f m) with (Ok (-1)%Z m).
    unfold bind at 1. rewrite IH. reflexivity.
  - simpl atexit_each.
    rewrite (bind_Ok _ _ _ _ _ (atexit_ok mem f m Hmem)).
    rewrite (bind_Ok _ _ _ _ _ (IH _)).
    unfold allocated, statuses. rewrite filter_cons. simpl.
    destruct (decide (mem ≠ 0%N)) as [_ | E]; [| contradiction].
    destruct (N.eqb_spec mem 0) as [E | _]; [contradiction |].
    reflexivity.
Qed.

Lemma released_app l1 l2 h : released (l1 ++ l2) h = released l2 (released l1 h).
Proof. unfold released. apply fold_left_app. Qed.

Lemma released_pushed_over regs old m :
  fresh_storage (heap m) regs ->
  released (rev regs ++ old) (heap (pushed regs m)) = released old (heap m).
Proof.
  intros [_ Hfree]. apply map_eq. intros k. rewrite !lookup_released.
  rewrite map_app, map_rev.
  destruct (decide (k ∈ map fst old)) as [Hold | Hnold].
  - rewrite decide_True; [reflexivity |].
    apply elem_of_app. right. exact Hold.
  - destruct (decide (k ∈ map fst regs)) as [Hin | Hnin].
    + rewrite decide_True.
      * symmetry. exact (proj2 (proj1 (Forall_forall _ _) Hfree k Hin)).
      * apply elem_of_app. left. rewrite elem_of_rev_iff. exact Hin.
    + rewrite decide_False.
      * apply lookup_pushed. exact Hnin.
      * rewrite elem_of_app, elem_of_rev_iff. intros [H | H]; contradiction.
Qed.

(** X6.  Registrations through [atexit] made on top of a well-formed
    chain, some of whose allocations may fail: the registration returns
    -1 exactly where the allocation failed and 0 elsewhere, and a drain
    then invokes the callbacks of the successful registrations, newest
    first, followed by the callbacks that were already chained; the
    callbacks of the failed registrations are not invoked, and the heap
    is left as the drain of the old chain alone would leave it. *)
Theorem atexit_each_then_drain regs old m :
  chain (heap m) (s_onexit_table m) old ->
  fresh_storage (heap m) (allocated regs) ->
  callable (map snd (allocated regs)) ->
  callable (map snd old) ->
  exists m1 m2,
    atexit_each regs m = Ok (statuses regs) m1 ∧
    drain s_onexit_table m1 = Ok 0%Z m2 ∧
    calls m2 = calls m ++ rev (map snd (allocated regs)) ++ map snd old ∧
    heap m2 = released old (heap m).
Proof.
  intros Hchain Hfresh Hnew Hold.
  pose proof (chain_pushed _ _ _ Hfresh Hchain) as Hall.
  destruct (pushed_frame (allocated regs) m) as (_ & Hc & _).
  eexists. eexists.
  split; [apply atexit_each_statuses |].
  split.
  { unfold drain, get. unfold bind at 1.
    apply (_execute_onexit_table_chain _ (rev (allocated regs) ++ old));
      [exact Hall |].
    unfold callable in Hnew, Hold |- *.
    rewrite map_app, map_rev. apply Forall_app. split; [| exact Hold].
    apply Forall_forall. intros f Hin. rewrite elem_of_rev_iff in Hin.
    exact (proj1 (Forall_forall _ _) Hnew f Hin). }
  split.
  { simpl. rewrite Hc, map_app, map_rev. reflexivity. }
  simpl. apply released_pushed_over, Hfresh.
Qed.

Lemma records_lookup l : forall h b,
  records h l -> b ∈ map fst l -> is_Some (h !! b).
Proof.
  induction l as [| [a f] l IH]; intros h b Hrec Hin; [inversion Hin |].
  simpl in Hrec, Hin. destruct Hrec as (_ & Hlook & Hrec).
  apply elem_of_cons in Hin as [-> | Hin]; [eauto |].
  destruct (IH _ _ Hrec Hin) as [e' He].
  apply lookup_delete_Some in He as [_ He]. eauto.
Qed.

Lemma records_app pre : forall suf h,
  records h (pre ++ suf) -> records (released pre h) suf.
Proof.
  induction pre as [| [a f] pre IH]; intros suf h Hrec; [exact Hrec |].
  simpl in Hrec. destruct Hrec as (_ & _ & Hrec).
  apply (IH _ _ Hrec).
Qed.

Lemma head_addr_app_cons pre a f post :
  head_addr (pre ++ (a, f) :: post) =
  match pre with [] => a | _ => head_addr pre end.
Proof. destruct pre as [| [b g] pre]; reflexivity. Qed.

Lemma execute_loop_null_at a post pre : forall fuel m,
  records (heap m) (pre ++ (a, nullptr) :: post) ->
  callable (map snd pre) ->
  length (pre ++ (a, nullptr) :: post) < fuel ->
  execute_loop fuel (head_addr (pre ++ (a, nullptr) :: post)) m =
  Undefined NullCall
    (with_heap (released pre (heap m)) (after_PVFV (map snd pre) m)).
Proof.
  induction pre as [| [b g] pre IH]; intros fuel m Hrec Hcall Hfuel.
  - destruct fuel as [| fuel]; [simpl in Hfuel; lia |].
    simpl in Hrec. destruct Hrec as (Ha & Hlook & _).
    simpl. destruct (N.eqb_spec a 0) as [E | _]; [contradiction |].
    unfold bind at 1. unfold load_next. rewrite Hlook. simpl.
    unfold bind at 1. unfold delete_onexit_entry.
    unfold bind at 1. rewrite Hlook. simpl.
    rewrite after_PVFV_nil. destruct m; reflexivity.
  - destruct fuel as [| fuel]; [simpl in Hfuel; lia |].
    simpl in Hrec. destruct Hrec as (Hb & Hlook & Hrec).
    simpl in Hcall. apply Forall_cons in Hcall as [Hg Hcall].
    change (head_addr (((b, g) :: pre) ++ (a, 0%N) :: post)) with b.
    rewrite (execute_loop_step fuel b _ g m Hb Hg Hlook).
    rewrite IH; [| exact Hrec | exact Hcall | simpl in Hfuel; lia].
    destruct m. unfold after_PVFV, with_heap, with_calls, with_world, released.
    simpl. rewrite <- app_assoc. reflexivity.
Qed.

(** X7.  A null callback in a well-formed chain stops the drain at its
    record: the callbacks of the records in front of it (the newer
    registrations) have been invoked and those records released, the
    call through the null pointer is undefined, and the record holding
    the null callback and every record behind it (the older
    registrations) are still live, their callbacks not invoked. *)
Theorem null_destructor_stops_drain table pre a post m :
  chain (heap m) table (pre ++ (a, nullptr) :: post) ->
  callable (map snd pre) ->
  exists m',
    _execute_onexit_table table m = Undefined NullCall m' ∧
    calls m' = calls m ++ map snd pre ∧
    (forall b, b ∈ map fst pre -> heap m' !! b = None) ∧
    (forall b, b ∈ a :: map fst post -> heap m' !! b = heap m !! b ∧
                                        is_Some (heap m' !! b)).
Proof.
  intros [-> Hrec] Hcall. eexists. split.
  { unfold _execute_onexit_table. apply execute_loop_null_at;
      [exact Hrec | exact Hcall |].
    apply records_size in Hrec. lia. }
  split; [reflexivity |].
  split.
  { intros b Hb. simpl. rewrite lookup_released, decide_True; auto. }
  intros b Hb. simpl.
  pose proof (records_app _ _ _ Hrec) as Hsuf.
  assert (Hlive : is_Some (released pre (heap m) !! b)).
  { apply (records_lookup _ _ _ Hsuf). exact Hb. }
  split; [| exact Hlive].
  rewrite lookup_released in Hlive |- *.
  destruct (decide (b ∈ map fst pre)) as [_ | _]; [| reflexivity].
  destruct Hlive as [x Hx]. discriminate.
Qed.

Lemma register_each_ok regs : forall m,
  Forall (fun a => a ≠ nullptr) (map fst (map snd regs)) ->
  register_each regs m = Ok (map (fun _ => 0%Z) regs) (registered regs m).
Proof.
  induction regs as [| [k [mem f]] regs IH]; intros m Hmem; [reflexivity |].
  simpl in Hmem. apply Forall_cons in Hmem as [Hm Hmem].
  simpl register_each.
  assert (Hreg : register_as k mem f m =
                 Ok 0%Z (installed mem
                           (match k with
                            | at_normal => s_onexit_table m
                            | at_quick => s_quick_onexit_table m
                            end) f m)).
  { destruct k; simpl; [apply atexit_ok | apply at_quick_exit_ok]; exact Hm. }
  rewrite (bind_Ok _ _ _ _ _ Hreg).
  rewrite (bind_Ok _ _ _ _ _ (IH _ Hmem)). reflexivity.
Qed.

Lemma registered_app r1 r2 m :
  registered (r1 ++ r2) m = registered r2 (registered r1 m).
Proof. unfold registered. apply fold_left_app. Qed.

Lemma registered_normal regs : forall m,
  registered (map (pair at_normal) regs) m = pushed regs m.
Proof.
  induction regs as [| [a f] regs IH]; intros m; [reflexivity |].
  simpl. apply IH.
Qed.

Lemma map_snd_pair_normal (regs : list (N * N)) :
  map snd (map (pair at_normal) regs) = regs.
Proof.
  induction regs as [| af regs IH]; [reflexivity |].
  simpl. rewrite IH. reflexivity.
Qed.

Lemma registered_frame regs : forall m,
  calls (registered regs m) = calls m ∧
  s_quick_onexit_table (registered regs m) = s_quick_onexit_table m ∧
  forall b, b ∉ map fst (map snd regs) ->
            heap (registered regs m) !! b = heap m !! b.
Proof.
  induction regs as [| [k [a f]] regs IH]; intros m; [easy |].
  simpl. destruct (IH (installed a
                          (match k with
                           | at_normal => s_onexit_table m
                           | at_quick => s_quick_onexit_table m
                           end) f m)) as (-> & -> & Hheap).
  split; [reflexivity |]. split; [reflexivity |].
  intros b Hb. apply not_elem_of_cons in Hb as [Hne Hb].
  rewrite (Hheap b Hb). simpl. apply lookup_insert_ne. congruence.
Qed.

(** X8.  A successful [at_quick_exit] cuts the normal-exit chain: when
    the quick-exit head pointer is null (as it is in every state the
    entry points can bring about), whatever was registered before it, by
    either entry point, is out of the drain's reach.  After further
    [atexit] registrations a drain of the normal-exit slot invokes those,
    newest first, then the quick-exit callback, and nothing else. *)
Theorem at_quick_exit_cuts_chain before mem function after m :
  s_quick_onexit_table m = nullptr ->
  fresh_storage (heap m) (map snd before ++ (mem, function) :: after) ->
  callable (function :: map snd after) ->
  exists m1 m2,
    register_each
      (before ++ (at_quick, (mem, function)) :: map (pair at_normal) after) m
    = Ok (map (fun _ => 0%Z)
            (before ++ (at_quick, (mem, function)) :: map (pair at_normal) after))
         m1 ∧
    drain s_onexit_table m1 = Ok 0%Z m2 ∧
    calls m2 = calls m ++ rev (map snd after) ++ [function] ∧
    (forall b, b ∈ map fst (map snd before) ->
               heap m2 !! b = heap m1 !! b).
Proof.
  intros Hquick [Hnd Hfree] Hcall.
  rewrite map_app in Hnd, Hfree. simpl in Hnd, Hfree.
  apply NoDup_app in Hnd as (_ & Hdisj & Hnd).
  apply NoDup_cons in Hnd as [Hmem_after Hnd_after].
  apply Forall_app in Hfree as [Hfree_before Hfree_rest].
  apply Forall_cons in Hfree_rest as [[Hmem Hmem_free] Hfree_after].
  apply Forall_cons in Hcall as [Hf Hcall].
  set (mb := registered before m).
  destruct (registered_frame before m) as (Hcalls_b & Hquick_b & Hheap_b).
  fold mb in Hcalls_b, Hquick_b, Hheap_b.
  set (mq := installed mem (s_quick_onexit_table mb) function mb).
  assert (Hchain_q : chain (heap mq) (s_onexit_table mq) [(mem, function)]).
  { split; [reflexivity |]. simpl.
    rewrite lookup_insert_eq, Hquick_b, Hquick. auto. }
  assert (Hfresh_q : fresh_storage (heap mq) after).
  { split; [exact Hnd_after |]. apply Forall_forall. intros b Hb.
    destruct (proj1 (Forall_forall _ _) Hfree_after b Hb) as [Hbnz Hbfree].
    split; [exact Hbnz |]. simpl.
    rewrite lookup_insert_ne by (intros ->; contradiction).
    rewrite Hheap_b; [exact Hbfree |].
    intros Hbb. apply (Hdisj b Hbb). right. exact Hb. }
  set (regs := before ++ (at_quick, (mem, function)) :: map (pair at_normal) after).
  assert (Hm1 : registered regs m = pushed after mq).
  { unfold regs. rewrite registered_app. simpl.
    change (registered (map (pair at_normal) after) mq = pushed after mq).
    apply registered_normal. }
  pose proof (chain_pushed _ _ _ Hfresh_q Hchain_q) as Hchain.
  destruct (pushed_frame after mq) as (_ & Hcalls_a & _).
  exists (registered regs m). eexists.
  split.
  { apply register_each_ok. unfold regs.
    rewrite (map_app snd), (map_app fst).
    change (map snd ((at_quick, (mem, function)) :: map (pair at_normal) after))
      with ((mem, function) :: map snd (map (pair at_normal) after)).
    rewrite map_snd_pair_normal.
    apply Forall_app. split.
    - eapply Forall_impl; [exact Hfree_before |]. intros b [Hb _]. exact Hb.
    - constructor; [exact Hmem |].
      eapply Forall_impl; [exact Hfree_after |]. intros b [Hb _]. exact Hb. }
  rewrite Hm1.
  split.
  { unfold drain, get. unfold bind at 1.
    apply (_execute_onexit_table_chain _ (rev after ++ [(mem, function)]));
      [exact Hchain |].
    unfold callable in Hcall |- *. rewrite map_app, map_rev.
    apply Forall_app. split.
    - apply Forall_forall. intros f Hin. rewrite elem_of_rev_iff in Hin.
      exact (proj1 (Forall_forall _ _) Hcall f Hin).
    - constructor; [exact Hf | constructor]. }
  split.
  { simpl. rewrite Hcalls_a, map_app, map_rev. simpl. rewrite Hcalls_b.
    reflexivity. }
  intros b Hb. simpl. rewrite lookup_released, decide_False; [reflexivity |].
  rewrite map_app, map_rev. simpl. rewrite elem_of_app, elem_of_rev_iff.
  intros [Hin | Hin].
  - apply (Hdisj b Hb). right. exact Hin.
  - apply list_elem_of_singleton in Hin. subst b.
    apply (Hdisj mem Hb). left.
Qed.

Lemma execute_loop_balance fuel : forall entry m,
  match execute_loop fuel entry m with
  | Ok _ m' | Undefined _ m' =>
      length (calls m') + size (heap m') = length (calls m) + size (heap m)
  | OutOfFuel => True
  end.
Proof.
  induction fuel as [| fuel IH]; intros entry m; [exact I |].
  destruct (N.eq_dec entry 0%N) as [-> | Hentry]; [reflexivity |].
  destruct (heap m !! entry) as [[next f] |] eqn:Hlook.
  - destruct (N.eq_dec f 0%N) as [-> | Hf].
    + simpl. destruct (N.eqb_spec entry 0) as [E | _]; [contradiction |].
      unfold bind at 1. unfold load_next. rewrite Hlook. simpl.
      unfold bind at 1. unfold delete_onexit_entry.
      unfold bind at 1. rewrite Hlook. reflexivity.
    + rewrite (execute_loop_step fuel entry next f m Hentry Hf Hlook).
      specialize (IH next (with_heap (delete entry (heap m)) (after_PVFV [f] m))).
      assert (Hstep : length (calls m ++ [f]) + size (delete entry (heap m))
                      = length (calls m) + size (heap m)).
      { rewrite length_app. simpl.
        rewrite (map_size_delete_Some entry (heap m)) by eauto.
        assert (size (heap m) ≠ 0).
        { intros E. apply map_size_empty_inv in E. rewrite E in Hlook.
          rewrite lookup_empty in Hlook. discriminate. }
        lia. }
      destruct (execute_loop fuel next _) as [status m' | why m' |];
        [| | exact I]; simpl in IH; rewrite IH; exact Hstep.
  - simpl. destruct (N.eqb_spec entry 0) as [E | _]; [contradiction |].
    unfold bind, load_next. rewrite Hlook. reflexivity.
Qed.

(** X9.  In [_execute_onexit_table] every call pairs with a release:
    from every pointer and on every heap, when the function returns or
    runs into undefined behaviour the number of calls it has made is the
    number of records it has released.  So no record's callback is called
    without the record being released, and none is released uncalled. *)
Theorem execute_onexit_table_balance table m :
  forall m',
    (exists status, _execute_onexit_table table m = Ok status m') ∨
    (exists why, _execute_onexit_table table m = Undefined why m') ->
    length (calls m') + size (heap m') = length (calls m) + size (heap m).
Proof.
  intros m' H.
  pose proof (execute_loop_balance (S (size (heap m))) table m) as Hbal.
  unfold _execute_onexit_table in H.
  destruct H as [[status E] | [why E]]; rewrite E in Hbal; exact Hbal.
Qed.

Lemma nothing_released (x : machine) :
  with_heap (released [] (heap x))
            (after_PVFV (map snd ([] : list (N * N))) x) = x.
Proof. simpl. rewrite after_PVFV_nil. destruct x; reflexivity. Qed.

(** X10.  [onexit] and [_onexit] accept a null function (their parameter
    is [_In_opt_]): when the allocation succeeds they store a record with
    a null callback on the normal-exit chain and return [nullptr], the
    very value they return when the allocation fails, so the caller cannot
    tell the two apart.  The stored record makes the next drain of the
    slot undefined at its first step, before any older callback runs. *)
Theorem onexit_null_function mem old m :
  mem ≠ nullptr -> heap m !! mem = None ->
  chain (heap m) (s_onexit_table m) old ->
  onexit nullptr nullptr m = Ok nullptr m ∧
  exists m1,
    onexit mem nullptr m = Ok nullptr m1 ∧
    _onexit mem nullptr m = Ok nullptr m1 ∧
    s_onexit_table m1 = mem ∧
    heap m1 !! mem = Some (mk_onexit_entry (s_onexit_table m) nullptr) ∧
    drain s_onexit_table m1 = Undefined NullCall m1.
Proof.
  intros Hmem Hfree Hchain. split; [reflexivity |].
  set (m1 := installed mem (s_onexit_table m) 0%N m).
  assert (Hreg : onexit mem 0%N m = Ok 0%N m1).
  { unfold onexit. rewrite (bind_Ok _ _ _ _ _ (atexit_ok mem 0%N m Hmem)).
    reflexivity. }
  exists m1. split; [exact Hreg |]. split; [exact Hreg |].
  split; [reflexivity |]. split; [simpl; apply lookup_insert_eq |].
  destruct (records_installed mem 0%N m old Hmem Hfree Hchain) as [Hhead Hrec].
  fold m1 in Hhead, Hrec.
  unfold drain, get. unfold bind at 1. unfold _execute_onexit_table.
  rewrite Hhead.
  rewrite (execute_loop_null_at mem old [] _ m1 Hrec).
  - rewrite nothing_released. reflexivity.
  - constructor.
  - apply records_size in Hrec. simpl in Hrec |- *. lia.
Qed.

End Startup.

Arguments Ok {World A} a m.
Arguments Undefined {World A} why m.
Arguments OutOfFuel {World A}.

(** ** Worked examples

    The examples start from the state at load time, with the defaults
    [NonPagedPoolNx] and [0x40000000] for the two policy values, and run
    in the environment [example_PVFV] / [example_PIFV]. *)

(** C1, as stated, fails: after c1, c2, c3 (callbacks 11, 12, 13 in the
    records at 1, 2, 3) are registered and drained, registering c4
    (callback 14, storage 4) and draining again invokes c4 and then
    leaves defined behaviour on the released record at 3, instead of
    completing with c4 alone. *)
Lemma drain_register_drain_is_undefined :
  exists m1 m2 m3 m4 : @machine (list N),
    atexit_each [(1, 11); (2, 12); (3, 13)]%N
      (initial [] NonPagedPoolNx 1073741824) = Ok [0; 0; 0]%Z m1 ∧
    drain example_PVFV s_onexit_table m1 = Ok 0%Z m2 ∧
    calls m2 = [13; 12; 11]%N ∧
    s_onexit_table m2 = 3%N ∧ heap m2 !! 3%N = None ∧
    atexit 4 14 m2 = Ok 0%Z m3 ∧
    heap m3 !! 4%N = Some (mk_onexit_entry 3 14) ∧
    drain example_PVFV s_onexit_table m3 = Undefined ReleasedRecord m4 ∧
    calls m4 = [13; 12; 11; 14]%N ∧
    (forall m' : @machine (list N),
        drain example_PVFV s_onexit_table m3 ≠ Ok 0%Z m').
Proof.
  do 4 eexists. repeat split; try reflexivity. intros m'. discriminate.
Qed.

(** C1 at work: three registrations, then a drain. *)
Lemma atexit_drain_lifo_witness :
  let m : @machine (list N) := initial [] NonPagedPoolNx 1073741824 in
  let regs := [(1, 11); (2, 12); (3, 13)]%N in
  s_onexit_table m = nullptr ∧
  fresh_storage (heap m) regs ∧
  callable (map snd regs) ∧
  exists m1 m2,
    atexit_each regs m = Ok [0; 0; 0]%Z m1 ∧
    drain example_PVFV s_onexit_table m1 = Ok 0%Z m2 ∧
    calls m2 = [13; 12; 11]%N.
Proof.
  intros m regs.
  assert (H1 : s_onexit_table m = nullptr) by reflexivity.
  assert (H2 : fresh_storage (heap m) regs).
  { split.
    - simpl.
      repeat (apply NoDup_cons_2;
                [rewrite ?elem_of_cons, elem_of_nil; intuition discriminate |]).
      apply NoDup_nil_2.
    - repeat constructor; discriminate. }
  assert (H3 : callable (map snd regs)) by (repeat constructor; discriminate).
  split; [exact H1 |]. split; [exact H2 |]. split; [exact H3 |].
  destruct (atexit_drain_lifo example_PVFV regs m H1 H2 H3)
    as (m1 & m2 & Hreg & Hdrain & Hcalls & _).
  exists m1, m2. split; [exact Hreg |]. split; [exact Hdrain | exact Hcalls].
Defined.

(** C2 at work: a range with null entries in which the third invocable
    entry (at 13) fails; the entry at 14 is not reached. *)
Lemma initterm_e_stops_at_first_failure_witness :
  let m : @machine (list N) := initial [] NonPagedPoolNx 1073741824 in
  let range := [0; 11; 0; 12; 13; 14; 0]%N in
  invocable range = [11; 12]%N ++ 13%N :: [14]%N ∧
  all_succeed example_PIFV [11; 12]%N (world m) [12; 11]%N ∧
  example_PIFV 13 [12; 11]%N = (5%Z, [13; 12; 11]%N) ∧
  5%Z ≠ 0%Z ∧
  exists m',
    _initterm_e example_PIFV range m = Ok 5%Z m' ∧
    calls m' = [11; 12; 13]%N.
Proof.
  intros m range.
  assert (H1 : invocable range = [11; 12]%N ++ 13%N :: [14]%N) by reflexivity.
  assert (H2 : all_succeed example_PIFV [11; 12]%N (world m) [12; 11]%N).
  { eapply all_succeed_cons; [reflexivity |].
    eapply all_succeed_cons; [reflexivity |]. apply all_succeed_nil. }
  assert (H3 : example_PIFV 13 [12; 11]%N = (5%Z, [13; 12; 11]%N)) by reflexivity.
  assert (H4 : 5%Z ≠ 0%Z) by discriminate.
  split; [exact H1 |]. split; [exact H2 |]. split; [exact H3 |].
  split; [exact H4 |].
  destruct (proj1 (initterm_e_stops_at_first_failure example_PIFV range m)
              _ _ _ _ _ _ H1 H2 H3 H4) as (m' & Hrun & Hcalls & _).
  exists m'. split; [exact Hrun | exact Hcalls].
Defined.

(** C3 fails on the code: with callback 11 registered at normal exit (in
    the record at 1), [at_quick_exit] for callback 12 (storage 2) leaves
    the quick-exit head pointer null and moves the normal-exit head
    pointer from 1 to the new record. *)
Lemma at_quick_exit_assigns_normal_head :
  exists m m' : @machine (list N),
    atexit 1 11 (initial [] NonPagedPoolNx 1073741824) = Ok 0%Z m ∧
    s_onexit_table m = 1%N ∧
    s_quick_onexit_table m = nullptr ∧
    at_quick_exit 2 12 m = Ok 0%Z m' ∧
    heap m' !! 2%N = Some (mk_onexit_entry nullptr 12) ∧
    s_quick_onexit_table m' = nullptr ∧
    s_quick_onexit_table m' ≠ 2%N ∧
    s_onexit_table m' = 2%N ∧
    s_onexit_table m' ≠ s_onexit_table m.
Proof.
  do 2 eexists. repeat split; try reflexivity; discriminate.
Qed.

(** C4, as stated, fails: draining the slot that holds the single record
    at 1 (callback 11) leaves the head pointer at 1, not empty, and a
    second drain is not a no-op but an access to the released record. *)
Lemma drain_leaves_head_stale :
  exists m m' : @machine (list N),
    atexit 1 11 (initial [] NonPagedPoolNx 1073741824) = Ok 0%Z m ∧
    drain example_PVFV s_onexit_table m = Ok 0%Z m' ∧
    calls m' = [11]%N ∧
    heap m' !! 1%N = None ∧
    s_onexit_table m' = 1%N ∧
    s_onexit_table m' ≠ nullptr ∧
    drain example_PVFV s_onexit_table m' = Undefined ReleasedRecord m' ∧
    drain example_PVFV s_onexit_table m' ≠ Ok 0%Z m'.
Proof.
  do 2 eexists. repeat split; try reflexivity; discriminate.
Qed.

(** C4 at work: a chain of two records. *)
Lemma execute_onexit_table_drains_witness :
  let m : @machine (list N) :=
    installed 2 1 12 (installed 1 nullptr 11 (initial [] NonPagedPoolNx 1073741824)) in
  let l := [(2, 12); (1, 11)]%N in
  chain (heap m) (s_onexit_table m) l ∧
  callable (map snd l) ∧
  exists m',
    _execute_onexit_table example_PVFV (s_onexit_table m) m = Ok 0%Z m' ∧
    calls m' = [12; 11]%N ∧
    s_onexit_table m' = 2%N.
Proof.
  intros m l.
  assert (H1 : chain (heap m) (s_onexit_table m) l).
  { repeat split; discriminate. }
  assert (H2 : callable (map snd l)) by (repeat constructor; discriminate).
  split; [exact H1 |]. split; [exact H2 |].
  destruct (execute_onexit_table_drains example_PVFV _ l m H1 H2)
    as (m' & Hrun & Hcalls & _ & _ & _ & Hhead & _).
  exists m'. split; [exact Hrun |]. split; [exact Hcalls | exact Hhead].
Defined.

(** C6 at work: a failed query and the versions (6, 1), (6, 2), (10, 0). *)
Lemma initialize_pool_policy_witness :
  let m : @machine (list N) := initial [] NonPagedPoolNx 1073741824 in
  (* the query fails (STATUS_UNSUCCESSFUL) *)
  _initialize_pool (-1073741823, mk_osversion 0 0)%Z m = Ok tt m ∧
  (* version (6, 1) *)
  (below_threshold 6 1 ∧
   exists m', _initialize_pool (0, mk_osversion 6 1)%Z m = Ok tt m' ∧
              DefaultPoolType m' = NonPagedPool ∧
              DefaultMdlProtection m' = 0%Z) ∧
  (* versions (6, 2) and (10, 0) *)
  (¬ below_threshold 6 2 ∧
   _initialize_pool (0, mk_osversion 6 2)%Z m = Ok tt m) ∧
  (¬ below_threshold 10 0 ∧
   _initialize_pool (0, mk_osversion 10 0)%Z m = Ok tt m).
Proof.
  intros m.
  assert (B61 : below_threshold 6 1) by (unfold below_threshold; lia).
  assert (B62 : ¬ below_threshold 6 2) by (unfold below_threshold; lia).
  assert (B100 : ¬ below_threshold 10 0) by (unfold below_threshold; lia).
  split.
  { apply (proj1 (initialize_pool_policy (-1073741823) (mk_osversion 0 0) m)).
    lia. }
  split.
  { split; [exact B61 |].
    destruct (proj1 (proj2 (initialize_pool_policy 0 (mk_osversion 6 1) m))
                ltac:(lia) B61) as (m' & Hrun & Hpool & Hmdl & _).
    exists m'. split; [exact Hrun |]. split; [exact Hpool | exact Hmdl]. }
  split.
  { split; [exact B62 |].
    apply (proj2 (proj2 (initialize_pool_policy 0 (mk_osversion 6 2) m)));
      [lia | exact B62]. }
  split; [exact B100 |].
  apply (proj2 (proj2 (initialize_pool_policy 0 (mk_osversion 10 0) m)));
    [lia | exact B100].
Defined.

(** C7 at work: a range of null entries, and a mixed range. *)
Lemma initterm_runs_all_witness :
  let m : @machine (list N) := initial [] NonPagedPoolNx 1073741824 in
  Forall (fun f => f = nullptr) [0; 0; 0]%N ∧
  _initterm example_PVFV [0; 0; 0]%N m = Ok tt m ∧
  _initterm_e example_PIFV [0; 0; 0]%N m = Ok 0%Z m ∧
  exists m',
    _initterm example_PVFV [0; 11; 0; 12; 13]%N m = Ok tt m' ∧
    calls m' = [11; 12; 13]%N.
Proof.
  intros m.
  assert (H : Forall (fun f => f = nullptr) [0; 0; 0]%N) by (repeat constructor).
  split; [exact H |].
  destruct (initterm_runs_all example_PVFV example_PIFV [0; 0; 0]%N m)
    as (_ & _ & _ & Hnull).
  destruct (Hnull H) as [Hv He].
  split; [exact Hv |]. split; [exact He |].
  destruct (initterm_runs_all example_PVFV example_PIFV [0; 11; 0; 12; 13]%N m)
    as ((m' & Hrun & Hcalls & _) & _).
  exists m'. split; [exact Hrun | exact Hcalls].
Defined.

(** C8 at work: a successful [onexit]. *)
Lemma onexit_returns_function_or_null_witness :
  let m : @machine (list N) := initial [] NonPagedPoolNx 1073741824 in
  1%N ≠ nullptr ∧
  exists m',
    atexit 1 11 m = Ok 0%Z m' ∧
    onexit 1 11 m = Ok 11%N m' ∧
    _onexit 1 11 m = Ok 11%N m'.
Proof.
  intros m.
  assert (H : 1%N ≠ nullptr) by discriminate.
  split; [exact H |].
  exact (proj1 (onexit_returns_function_or_null 1 11 m) H).
Defined.

(** C9 at work: two normal-exit registrations, then [at_quick_exit]; the
    drain calls the function at 13 only and the two earlier records stay
    live. *)
Lemma at_quick_exit_orphans_normal_chain_witness :
  let m0 : @machine (list N) := initial [] NonPagedPoolNx 1073741824 in
  let m := installed 2 1 12 (installed 1 nullptr 11 m0) in
  serve_all example_PVFV example_PIFV [call_atexit 1 11; call_atexit 2 12] m0
  = Ok tt m ∧
  2%N = s_onexit_table m ∧
  3%N ≠ nullptr ∧ heap m !! 3%N = None ∧ 13%N ≠ nullptr ∧
  exists m1 m2,
    at_quick_exit 3 13 m = Ok 0%Z m1 ∧
    drain example_PVFV s_onexit_table m1 = Ok 0%Z m2 ∧
    calls m2 = [13]%N ∧
    heap m2 = heap m.
Proof.
  intros m0 m.
  assert (H1 : serve_all example_PVFV example_PIFV
                 [call_atexit 1 11; call_atexit 2 12] m0 = Ok tt m)
    by reflexivity.
  assert (H2 : 3%N ≠ nullptr) by discriminate.
  assert (H3 : heap m !! 3%N = None) by reflexivity.
  assert (H4 : 13%N ≠ nullptr) by discriminate.
  split; [exact H1 |]. split; [reflexivity |]. split; [exact H2 |].
  split; [exact H3 |]. split; [exact H4 |].
  destruct (at_quick_exit_orphans_normal_chain example_PVFV example_PIFV
              _ _ _ _ m 3%N 13%N H1 H2 H3 H4)
    as (_ & m1 & m2 & Hreg & _ & _ & _ & _ & Hdrain & Hcalls & Hheap).
  exists m1, m2. split; [exact Hreg |]. split; [exact Hdrain |].
  split; [exact Hcalls | exact Hheap].
Defined.

(** C10 at work: [atexit(nullptr)], then a drain. *)
Lemma null_destructor_needs_precondition_witness :
  let m0 : @machine (list N) := initial [] NonPagedPoolNx 1073741824 in
  let m := installed 1 nullptr nullptr m0 in
  1%N ≠ nullptr ∧
  atexit 1 nullptr m0 = Ok 0%Z m ∧
  chain (heap m) (s_onexit_table m) [(1, 0)]%N ∧
  ¬ callable (map snd [(1, 0)]%N) ∧
  exists m',
    _execute_onexit_table example_PVFV (s_onexit_table m) m
    = Undefined NullCall m'.
Proof.
  intros m0 m.
  assert (H1 : 1%N ≠ nullptr) by discriminate.
  assert (H2 : chain (heap m) (s_onexit_table m) [(1, 0)]%N).
  { repeat split; discriminate. }
  assert (H3 : ¬ callable (map snd [(1, 0)]%N)).
  { intros Hc. inversion Hc as [| f fs Hf _]. apply Hf. reflexivity. }
  split; [exact H1 |]. split; [reflexivity |]. split; [exact H2 |].
  split; [exact H3 |].
  exact (proj2 (proj2 (null_destructor_needs_precondition example_PVFV
                         m 1%N _ _ H1 H2)) H3).
Defined.

(** X1 at work: a record whose [_next] is its own address.  The walk
    calls its callback, releases it, and ends on the released record. *)
Lemma execute_onexit_table_ends_witness :
  let m : @machine (list N) :=
    with_heap {[ 1%N := mk_onexit_entry 1 11 ]}
      (initial [] NonPagedPoolNx 1073741824) in
  let m' : @machine (list N) := with_calls [11%N] (with_world [11%N]
      (initial [] NonPagedPoolNx 1073741824)) in
  _execute_onexit_table example_PVFV 1 m = Undefined ReleasedRecord m' ∧
  teardown_frame m m'.
Proof.
  intros m m'.
  assert (H : _execute_onexit_table example_PVFV 1 m
              = Undefined ReleasedRecord m') by reflexivity.
  split; [exact H |].
  exact (proj2 (proj2 (execute_onexit_table_ends example_PVFV 1%N m))
           ReleasedRecord m' H).
Defined.

(** X2 at work: the entry at 13 fails with status 5. *)
Lemma initterm_e_returns_witness :
  exists status (m' : @machine (list N)) called,
    _initterm_e example_PIFV [0; 11; 13; 14]%N
      (initial [] NonPagedPoolNx 1073741824) = Ok status m' ∧
    calls m' = [] ++ called ∧
    called `prefix_of` invocable [0; 11; 13; 14]%N.
Proof.
  destruct (initterm_e_returns example_PIFV [0; 11; 13; 14]%N
              (initial [] NonPagedPoolNx 1073741824))
    as (status & m' & called & Hrun & Hcalls & Hpre & _).
  exists status, m', called. split; [exact Hrun |].
  split; [exact Hcalls | exact Hpre].
Defined.

(** X4 at work: a group with its opening marker and padding. *)
Lemma initterm_ignores_null_entries_witness :
  let m : @machine (list N) := initial [] NonPagedPoolNx 1073741824 in
  invocable (__xc_a ++ [11; 0; 12]%N) = invocable [11; 12]%N ∧
  _initterm example_PVFV (__xc_a ++ [11; 0; 12]%N) m
  = _initterm example_PVFV [11; 12]%N m ∧
  _initterm_e example_PIFV (__xc_a ++ [11; 0; 12]%N) m
  = _initterm_e example_PIFV [11; 12]%N m.
Proof.
  intros m.
  assert (H : invocable (__xc_a ++ [11; 0; 12]%N) = invocable [11; 12]%N)
    by reflexivity.
  split; [exact H |].
  destruct (initterm_ignores_null_entries example_PVFV example_PIFV
              (__xc_a ++ [11; 0; 12]%N) [11; 12]%N m H) as (Hv & He & _).
  split; [exact Hv | exact He].
Defined.

(** X5 at work: version (6, 1) lowers the policy and version (10, 0)
    does not restore it. *)
Lemma initialize_pool_settles_witness :
  let m : @machine (list N) := initial [] NonPagedPoolNx 1073741824 in
  let m1 := with_pool NonPagedPool 0%Z m in
  _initialize_pool (0, mk_osversion 6 1)%Z m = Ok tt m1 ∧
  m1 ≠ m ∧
  _initialize_pool (0, mk_osversion 10 0)%Z m1 = Ok tt m1 ∧
  DefaultPoolType m1 = NonPagedPool ∧ DefaultMdlProtection m1 = 0%Z.
Proof.
  intros m m1.
  assert (H1 : _initialize_pool (0, mk_osversion 6 1)%Z m = Ok tt m1)
    by reflexivity.
  assert (H2 : m1 ≠ m) by discriminate.
  assert (H3 : _initialize_pool (0, mk_osversion 10 0)%Z m1 = Ok tt m1)
    by reflexivity.
  split; [exact H1 |]. split; [exact H2 |]. split; [exact H3 |].
  exact (proj2 (proj2 (proj2 (initialize_pool_settles (0, mk_osversion 6 1)%Z m))
                 _ _ m1 m1 H1 H2 H3)).
Defined.

(** X6 at work: one record chained, then three registrations of which
    the second fails. *)
Lemma atexit_each_then_drain_witness :
  let m : @machine (list N) :=
    installed 1 nullptr 11 (initial [] NonPagedPoolNx 1073741824) in
  let regs := [(2, 12); (0, 13); (4, 14)]%N in
  chain (heap m) (s_onexit_table m) [(1, 11)]%N ∧
  fresh_storage (heap m) (allocated regs) ∧
  callable (map snd (allocated regs)) ∧
  callable (map snd [(1, 11)]%N) ∧
  exists m1 m2,
    atexit_each regs m = Ok [0; -1; 0]%Z m1 ∧
    drain example_PVFV s_onexit_table m1 = Ok 0%Z m2 ∧
    calls m2 = [14; 12; 11]%N.
Proof.
  intros m regs.
  assert (H1 : chain (heap m) (s_onexit_table m) [(1, 11)]%N).
  { repeat split; discriminate. }
  assert (H2 : fresh_storage (heap m) (allocated regs)).
  { split.
    - simpl.
      repeat (apply NoDup_cons_2;
                [rewrite ?elem_of_cons, elem_of_nil; intuition discriminate |]).
      apply NoDup_nil_2.
    - repeat constructor; discriminate. }
  assert (H3 : callable (map snd (allocated regs)))
    by (repeat constructor; discriminate).
  assert (H4 : callable (map snd [(1, 11)]%N))
    by (repeat constructor; discriminate).
  split; [exact H1 |]. split; [exact H2 |]. split; [exact H3 |].
  split; [exact H4 |].
  destruct (atexit_each_then_drain example_PVFV regs [(1, 11)]%N m H1 H2 H3 H4)
    as (m1 & m2 & Hreg & Hdrain & Hcalls & _).
  exists m1, m2. split; [exact Hreg |]. split; [exact Hdrain | exact Hcalls].
Defined.

(** X7 at work: a chain of three records whose middle one holds a null
    callback. *)
Lemma null_destructor_stops_drain_witness :
  let m : @machine (list N) :=
    installed 3 2 13 (installed 2 1 nullptr
      (installed 1 nullptr 11 (initial [] NonPagedPoolNx 1073741824))) in
  chain (heap m) (s_onexit_table m) ([(3, 13)] ++ (2, nullptr) :: [(1, 11)])%N ∧
  callable (map snd [(3, 13)]%N) ∧
  exists m',
    _execute_onexit_table example_PVFV (s_onexit_table m) m
    = Undefined NullCall m' ∧
    calls m' = [13]%N.
Proof.
  intros m.
  assert (H1 : chain (heap m) (s_onexit_table m)
                 ([(3, 13)] ++ (2, nullptr) :: [(1, 11)])%N).
  { repeat split; discriminate. }
  assert (H2 : callable (map snd [(3, 13)]%N))
    by (repeat constructor; discriminate).
  split; [exact H1 |]. split; [exact H2 |].
  destruct (null_destructor_stops_drain example_PVFV _ _ _ _ m H1 H2)
    as (m' & Hrun & Hcalls & _).
  exists m'. split; [exact Hrun | exact Hcalls].
Defined.

(** X8 at work: [atexit], [at_quick_exit], [atexit]; the drain reaches
    the last two only. *)
Lemma at_quick_exit_cuts_chain_witness :
  let m : @machine (list N) := initial [] NonPagedPoolNx 1073741824 in
  s_quick_onexit_table m = nullptr ∧
  fresh_storage (heap m) (map snd [(at_normal, (1, 11))] ++ (2, 12) :: [(3, 13)])%N ∧
  callable (12 :: map snd [(3, 13)])%N ∧
  exists m1 m2,
    register_each
      [(at_normal, (1, 11)); (at_quick, (2, 12)); (at_normal, (3, 13))]%N m
    = Ok [0; 0; 0]%Z m1 ∧
    drain example_PVFV s_onexit_table m1 = Ok 0%Z m2 ∧
    calls m2 = [13; 12]%N.
Proof.
  intros m.
  assert (H1 : s_quick_onexit_table m = nullptr) by reflexivity.
  assert (H2 : fresh_storage (heap m)
                 (map snd [(at_normal, (1, 11))] ++ (2, 12) :: [(3, 13)])%N).
  { split.
    - simpl.
      repeat (apply NoDup_cons_2;
                [rewrite ?elem_of_cons, elem_of_nil; intuition discriminate |]).
      apply NoDup_nil_2.
    - repeat constructor; discriminate. }
  assert (H3 : callable (12 :: map snd [(3, 13)])%N)
    by (repeat constructor; discriminate).
  split; [exact H1 |]. split; [exact H2 |]. split; [exact H3 |].
  destruct (at_quick_exit_cuts_chain example_PVFV
              [(at_normal, (1, 11))]%N 2%N 12%N [(3, 13)]%N m H1 H2 H3)
    as (m1 & m2 & Hreg & Hdrain & Hcalls & _).
  exists m1, m2. split; [exact Hreg |]. split; [exact Hdrain | exact Hcalls].
Defined.

(** X9 at work: a drain of two records makes two calls. *)
Lemma execute_onexit_table_balance_witness :
  let m : @machine (list N) :=
    installed 2 1 12 (installed 1 nullptr 11
      (initial [] NonPagedPoolNx 1073741824)) in
  let m' : @machine (list N) :=
    with_calls [12; 11]%N (with_world [11; 12]%N
      (with_heap ∅ m)) in
  _execute_onexit_table example_PVFV 2 m = Ok 0%Z m' ∧
  length (calls m') + size (heap m') = length (calls m) + size (heap m).
Proof.
  intros m m'.
  assert (H : _execute_onexit_table example_PVFV 2 m = Ok 0%Z m')
    by reflexivity.
  split; [exact H |].
  apply (execute_onexit_table_balance example_PVFV 2%N m m').
  left. exists 0%Z. exact H.
Defined.

(** X10 at work: [onexit(nullptr)] on top of one registered callback. *)
Lemma onexit_null_function_witness :
  let m : @machine (list N) :=
    installed 1 nullptr 11 (initial [] NonPagedPoolNx 1073741824) in
  2%N ≠ nullptr ∧ heap m !! 2%N = None ∧
  chain (heap m) (s_onexit_table m) [(1, 11)]%N ∧
  exists m1,
    onexit 2 nullptr m = Ok nullptr m1 ∧
    drain example_PVFV s_onexit_table m1 = Undefined NullCall m1.
Proof.
  intros m.
  assert (H1 : 2%N ≠ nullptr) by discriminate.
  assert (H2 : heap m !! 2%N = None) by reflexivity.
  assert (H3 : chain (heap m) (s_onexit_table m) [(1, 11)]%N).
  { repeat split; discriminate. }
  split; [exact H1 |]. split; [exact H2 |]. split; [exact H3 |].
  destruct (onexit_null_function example_PVFV 2%N [(1, 11)]%N m H1 H2 H3)
    as (_ & m1 & Hreg & _ & _ & _ & Hdrain).
  exists m1. split; [exact Hreg | exact Hdrain].
Defined.
